(** * Keraon helpers: a shallow embedding of [keraon_helpers.py]

  The numeric code of Keraon (tumor-fraction grid search, subtype
  prediction, Gram-Schmidt basis change, simplex-volume feature selection
  and the Shapiro normality filter) is embedded here over the real numbers
  of the Standard Library: a numpy [float64] is read as an exact real, so
  rounding error, [nan] and overflow are outside that model.  The two
  infinities that the source uses as loop seeds ([float('inf')] and
  [-np.inf]) are kept, as the extra points of [ereal].  Where rounding is
  the subject, in the Gram-Schmidt round trip, the code is embedded a second
  time over the binary64 numbers of the Standard Library (module [F64]).

  An exception of the source is the value [None].  numpy and scipy raise
  [ValueError] or [IndexError] on arrays whose shapes do not fit; the
  functions below check the shapes where the source's calls do.

  Library routines whose body is not part of the repository
  ([multivariate_normal.logpdf], [np.linalg.eigvalsh], [scipy.stats.shapiro])
  are parameters of the functions that call them. *)

From Stdlib Require Import Floats.
From Stdlib Require Import Reals Lra Lia ZArith.
From stdpp Require Import base option list gmap strings.

(** ** Decidable comparisons on reals, as the source's [<], [>], [==], [>=] *)

#[global] Instance Rlt_decision : RelDecision Rlt := Rlt_dec.
#[global] Instance Rle_decision : RelDecision Rle := Rle_dec.
#[global] Instance Rgt_decision : RelDecision Rgt := Rgt_dec.
#[global] Instance Rge_decision : RelDecision Rge := Rge_dec.
#[global] Instance Req_decision : EqDecision R := Req_dec_T.

(** ** numpy primitives *)

Module Np.
Local Open Scope R_scope.

Definition vec := list R.
Definition matrix := list (list R).

(** [np.sum] of a one-dimensional array. *)
Definition sum (l : list R) : R := foldr Rplus 0 l.

(** Elementwise arithmetic on two arrays of one length, and scalar times
    array.  On arrays of different lengths numpy raises [ValueError] (or
    broadcasts an array of length one): [add], [sub] and [dot] are the
    operations on equal lengths only, and every function of the source that
    is embedded below compares the lengths before it uses them. *)
Definition add (a b : vec) : vec := zip_with Rplus a b.
Definition sub (a b : vec) : vec := zip_with Rminus a b.
Definition scal (c : R) (a : vec) : vec := Rmult c <$> a.

(** [np.dot] of two vectors of one length and [np.linalg.norm] of a vector. *)
Definition dot (a b : vec) : R := sum (zip_with Rmult a b).
Definition norm (a : vec) : R := sqrt (dot a a).

(** [np.eye(n)] and [m.shape[0]]. *)
Definition eye (n : nat) : matrix :=
  (λ i, (λ j, if decide (i = j) then 1 else 0) <$> seq 0 n) <$> seq 0 n.
Definition shape0 (m : matrix) : nat := length m.

(** The least integer that is not below [x]. *)
Definition ceil (x : R) : Z := (1 - up (- x))%Z.

(** [np.arange(start, stop, step)]: [ceil((stop - start) / step)] points
    [start + i * step]. *)
Definition arange (start stop step : R) : list R :=
  (λ i : nat, start + INR i * step) <$> seq 0 (Z.to_nat (ceil ((stop - start) / step))).
End Np.

(** [l.index(x)]: the position of the first occurrence, [None] for the
  [ValueError] of an absent element. *)
Fixpoint index (x : string) (l : list string) : option nat :=
match l with
| [] => None
| y :: l' => if decide (y = x) then Some 0%nat else S <$> index x l'
end.

(** Reals with the two infinities used as seeds of running extrema. *)
Inductive ereal : Type :=
| NegInf
| Finite (x : R)
| PosInf.

(** [x < b] for a finite [x] and a running bound [b]. *)
Definition lt_bound (x : R) (b : ereal) : bool :=
match b with
| NegInf => false
| Finite y => bool_decide (x < y)%R
| PosInf => true
end.

(** [x > b] for a finite [x] and a running bound [b]. *)
Definition gt_bound (x : R) (b : ereal) : bool :=
match b with
| NegInf => true
| Finite y => bool_decide (x > y)%R
| PosInf => false
end.

(** ** Gaussian mixture likelihood and the tumor-fraction grid search *)

Section Likelihood.
Local Open Scope R_scope.

(** [multivariate_normal.logpdf(x, mean=, cov=)] of scipy, on a point, a
    mean and a covariance of one dimension. *)
Variable logpdf : Np.vec → Np.vec → Np.matrix → R.

(** One pass of the loop body of [calculate_log_likelihoods].  [None] is an
    exception: the [IndexError] of [mu_subs[...]], the [ValueError] of numpy
    for the sum of two means of different lengths, and the [ValueError] of
    scipy for a mean or a point whose length is not the dimension
    [cov_healthy.shape[0]] of the identity covariance.  (An array of length
    one, which numpy would broadcast against a longer one, is not a shape of
    the data, where every array has one entry per feature; it is answered
    like any other mismatch.) *)
Definition subtype_log_likelihood (tfx : R) (feature_vals mu_healthy : Np.vec)
    (cov_healthy : Np.matrix) (mu_subs : list Np.vec) (subtypes : list string)
    (subtype : string) : option R :=
  i ← index subtype subtypes;
  mu_sub ← mu_subs !! i;
  if decide (length mu_sub = length mu_healthy) then
    let mu_mixture := Np.add (Np.scal tfx mu_sub) (Np.scal (1 - tfx) mu_healthy) in
    let cov_mixture := Np.eye (Np.shape0 cov_healthy) in
    if decide (length mu_mixture = Np.shape0 cov_healthy
               ∧ length feature_vals = Np.shape0 cov_healthy)
    then Some (logpdf feature_vals mu_mixture cov_mixture)
    else None
  else None.

Definition calculate_log_likelihoods (tfx : R) (feature_vals mu_healthy : Np.vec)
    (cov_healthy : Np.matrix) (mu_subs : list Np.vec) (subtypes : list string)
    : option (list R) :=
  mapM (subtype_log_likelihood tfx feature_vals mu_healthy cov_healthy mu_subs subtypes)
       subtypes.

(** The [for try_tfx in ...] loop of [optimize_tfx], with the two running
    variables as accumulators. *)
Fixpoint optimize_tfx_loop (feature_vals mu_healthy : Np.vec) (cov_healthy : Np.matrix)
    (mu_subs : list Np.vec) (subtypes : list string)
    (grid : list R) (best_tfx : R) (best_ll : ereal) : option R :=
  match grid with
  | [] => Some best_tfx
  | try_tfx :: grid' =>
      log_likelihoods ← calculate_log_likelihoods try_tfx feature_vals mu_healthy
                          cov_healthy mu_subs subtypes;
      let ll := - Np.sum (exp <$> log_likelihoods) in
      if lt_bound ll best_ll
      then optimize_tfx_loop feature_vals mu_healthy cov_healthy mu_subs subtypes
             grid' try_tfx (Finite ll)
      else optimize_tfx_loop feature_vals mu_healthy cov_healthy mu_subs subtypes
             grid' best_tfx best_ll
  end.

Definition optimize_tfx (feature_vals mu_healthy : Np.vec) (cov_healthy : Np.matrix)
    (mu_subs : list Np.vec) (subtypes : list string) : option R :=
  optimize_tfx_loop feature_vals mu_healthy cov_healthy mu_subs subtypes
    (Np.arange 0 1.001 0.001) 0 PosInf.
End Likelihood.


(** A concrete log-density, for running the likelihood code: the normal law
    whose covariance is the diagonal of [cov],
    [-(k log(2 pi) + log det + Mahalanobis distance) / 2] as scipy computes
    it.  [np.eye] is the only covariance that the code hands to [logpdf]. *)
Definition diagonal (m : Np.matrix) : Np.vec :=
  imap (λ i row, default 0%R (row !! i)) m.

Definition diag_normal_logpdf (x mean : Np.vec) (cov : Np.matrix) : R :=
  (- / 2 * (INR (length (diagonal cov)) * ln (2 * PI)
            + Np.sum (ln <$> diagonal cov)
            + Np.sum (zip_with (λ d v, d * d / v) (Np.sub x mean) (diagonal cov))))%R.

(** ** Rounding and softmax *)

(** [np.rint]: the nearest integer, a tie going to the even neighbour. *)
Definition rint (x : R) : Z :=
  let f := Int_part x in
  let r := (x - IZR f)%R in
  if decide (r < / 2)%R then f
  else if decide (r > / 2)%R then (f + 1)%Z
  else if Z.even f then f else (f + 1)%Z.

(** [np.round(x, decimals)]: scale by a power of ten, [rint], scale back. *)
Definition round (x : R) (decimals : nat) : R :=
  (IZR (rint (x * 10 ^ decimals)) / 10 ^ decimals)%R.

(** [np.amax] of a one-dimensional array; [None] is the [ValueError] that
    the reduction raises on an empty array. *)
Definition amax (l : list R) : option R :=
  match l with
  | [] => None
  | x :: l' => Some (foldl Rmax x l')
  end.

(** [scipy.special.softmax]: exponentials of the entries shifted by their
    maximum, divided by their sum. *)
Definition softmax (x : list R) : option (list R) :=
  x_max ← amax x;
  let exp_x_shifted := (λ v, exp (v - x_max)) <$> x in
  Some ((λ e, e / Np.sum exp_x_shifted)%R <$> exp_x_shifted).

(** ** The predictions table *)

(** A cell of a pandas table: a number or a label. *)
Inductive cell : Type :=
  | Num (x : R)
  | Str (s : string).

(** A table addressed by row label, then column label.  A missing cell is a
    cell that pandas shows as [NaN]. *)
Abbreviation DataFrame := (gmap string (gmap string cell)).

(** [df.loc[row, col] = v], which creates the row and the column on demand. *)
Definition loc_set (df : DataFrame) (row col : string) (v : cell) : DataFrame :=
  <[row := <[col := v]> (default ∅ (df !! row))]> df.

(** [df.loc[row, col]]. *)
Definition loc_get (df : DataFrame) (row col : string) : option cell :=
  r ← df !! row; r !! col.

(** The [for subtype in subtypes] loop of [update_predictions] over the
    subtypes still to visit.  The table is updated in place, so it is
    returned also when [weights[...]] raises [IndexError] (second component
    [None]); otherwise the second component is the final [max_subtype]. *)
Fixpoint prediction_loop (predictions : DataFrame) (sample : string) (weights : list R)
    (subtypes rest : list string) (max_weight : R) (max_subtype : string)
    : DataFrame * option string :=
  match rest with
  | [] => (predictions, Some max_subtype)
  | subtype :: rest' =>
      match index subtype subtypes ≫= (weights !!.) with
      | None => (predictions, None)
      | Some w =>
          let weight := round w 4 in
          let predictions := loc_set predictions sample subtype (Num weight) in
          if bool_decide (weight > max_weight)%R
          then prediction_loop predictions sample weights subtypes rest' weight subtype
          else prediction_loop predictions sample weights subtypes rest' max_weight max_subtype
      end
  end.

(** [update_predictions]: the table after the call, and whether the call
    returned ([true]) or raised ([false]). *)
Definition update_predictions (predictions : DataFrame) (sample : string)
    (tfx tfx_shifted : R) (log_likelihoods : list R) (subtypes : list string)
    : DataFrame * bool :=
  match softmax log_likelihoods with
  | None => (predictions, false)
  | Some weights =>
      let predictions := loc_set predictions sample "TFX" (Num tfx) in
      let predictions := loc_set predictions sample "TFX_shifted" (Num tfx_shifted) in
      match prediction_loop predictions sample weights subtypes subtypes 0 "NoSolution" with
      | (predictions, Some max_subtype) =>
          (loc_set predictions sample "Prediction" (Str max_subtype), true)
      | (predictions, None) => (predictions, false)
      end
  end.

(** The weight that the loop reads for a subtype label: the softmax weight at
    the label's first position, rounded to four decimals. *)
Definition rounded_weight (weights : list R) (subtypes : list string) (s : string)
    : option R :=
  w ← index s subtypes ≫= (weights !!.); Some (round w 4).

(** ** Greedy maximisation over feature masks *)

#[global] Instance ereal_eq_decision : EqDecision ereal.
Proof. solve_decision. Defined.

(** [itertools.combinations(l, k)], in the order itertools yields them. *)
Fixpoint combinations (l : list nat) (k : nat) : list (list nat) :=
  match k with
  | O => [[]]
  | S k' =>
      match l with
      | [] => []
      | x :: l' => (cons x <$> combinations l' k') ++ combinations l' k
      end
  end.

(** [mask = np.zeros(n, dtype=bool); mask[list(indices)] = 1]. *)
Definition mask_of (n : nat) (indices : list nat) : list bool :=
  (λ i, bool_decide (i ∈ indices)) <$> seq 0 n.

(** The number of features that a mask leaves out, and that it selects. *)
Definition unset_bits (mask : list bool) : nat :=
  length (filter (λ b, b = false) mask).
Definition set_bits (mask : list bool) : nat :=
  length (filter (λ b, b = true) mask).

Section Greedy.
(** The function to maximise: [fun]. *)
Variable f : list bool → R.
(** The length of the masks: [n]. *)
Variable n : nat.

(** First phase of [greedy_maximize]: the best mask among those with
    [n_min] bits set, the earliest one on a tie, with its value. *)
Definition exhaustive_start (n_min : nat) : list bool * ereal :=
  foldl (λ '(best_mask, best_value) indices,
           let mask := mask_of n indices in
           let value := f mask in
           if gt_bound value best_value then (mask, Finite value)
           else (best_mask, best_value))
        (replicate n false, NegInf)
        (combinations (seq 0 n) n_min).

(** The [for i in range(n)] loop inside one round of the second phase. *)
Definition greedy_scan (best_mask : list bool) (best_value : ereal)
    : list bool * ereal :=
  foldl (λ '(best_new_mask, best_new_value) i,
           if decide (best_mask !! i = Some false) then
             let new_mask := <[i := true]> best_mask in
             let new_value := f new_mask in
             if gt_bound new_value best_new_value then (new_mask, Finite new_value)
             else (best_new_mask, best_new_value)
           else (best_new_mask, best_new_value))
        (best_mask, best_value)
        (seq 0 n).

(** The [while True] loop of the second phase.  The result is the final mask
    and the number of times that the loop body ran, the pass that leaves by
    [break] included; [None] when the fuel is used up before the [break]. *)
Fixpoint greedy_loop (fuel : nat) (best_mask : list bool) (best_value : ereal)
    : option (list bool * nat) :=
  match fuel with
  | O => None
  | S fuel' =>
      let '(best_new_mask, best_new_value) := greedy_scan best_mask best_value in
      if decide (best_new_value = best_value) then Some (best_mask, 1%nat)
      else (λ '(mask, rounds), (mask, S rounds)) <$> greedy_loop fuel' best_new_mask best_new_value
  end.

Definition greedy_maximize (fuel : nat) (n_min : nat) : option (list bool * nat) :=
  let '(best_mask, best_value) := exhaustive_start n_min in
  greedy_loop fuel best_mask best_value.
End Greedy.

(** ** Gram-Schmidt and the change of basis *)

(** [np.zeros(d)]. *)
Definition zeros (d : nat) : Np.vec := replicate d 0%R.

(** Python's [sum] of a sequence of arrays of length [d]: a left fold that
    starts from 0, which numpy broadcasts to an array of zeros. *)
Definition array_sum (d : nat) (terms : list Np.vec) : Np.vec :=
  foldl Np.add (zeros d) terms.

(** [a / c] for an array [a] and a scalar [c]. *)
Definition divide (a : Np.vec) (c : R) : Np.vec := (λ x, x / c)%R <$> a.

(** The arrays of a list all have the length of the first one. *)
Definition same_length {A} (vs : list (list A)) : Prop :=
  match vs with
  | [] => True
  | v :: vs' => Forall (λ w, length w = length v) vs'
  end.

#[global] Instance same_length_dec {A} (vs : list (list A)) : Decision (same_length vs).
Proof. destruct vs; apply _. Defined.

(** The rows of [basis] are as long as [vector], and there is one at least. *)
Definition fits_basis {A} (vector : list A) (basis : list (list A)) : Prop :=
  basis ≠ [] ∧ Forall (λ b, length b = length vector) basis.

(** The loop of [gram_schmidt] in exact arithmetic, with the basis built so
    far: every [float64] operation of lines 76 to 78 is the operation on
    reals.  The same loop on binary64 numbers is [F64.gram_schmidt_loop]. *)
Fixpoint gram_schmidt_loop (basis : list Np.vec) (vectors : list Np.vec) : list Np.vec :=
  match vectors with
  | [] => basis
  | v :: vectors' =>
      let w := Np.sub v (array_sum (length v) ((λ b, Np.scal (Np.dot v b) b) <$> basis)) in
      gram_schmidt_loop (basis ++ [divide w (Np.norm w)]) vectors'
  end.

(** [gram_schmidt] in exact arithmetic.  [None] is the [ValueError] of
    [np.dot(v, b)] on two vectors of different lengths: every basis vector
    has the length of the input vector it was made from, so the loop gets
    through exactly when all the input vectors have the length of the first
    one. *)
Definition gram_schmidt (vectors : list Np.vec) : option (list Np.vec) :=
  if decide (same_length vectors) then Some (gram_schmidt_loop [] vectors) else None.

(** [np.dot(vector, basis.T)]: the dot product with every row of [basis]. *)
Definition dot_rows (vector : Np.vec) (basis : list Np.vec) : Np.vec :=
  Np.dot vector <$> basis.

(** [np.dot(p, basis)] for a matrix [basis] with [d] columns: entry [c] is
    the sum over the rows [j] of [p[j] * basis[j][c]]. *)
Definition dot_matrix (d : nat) (p : Np.vec) (basis : list Np.vec) : Np.vec :=
  (λ c, Np.sum (zip_with (λ pj row, pj * default 0 (row !! c))%R p basis)) <$> seq 0 d.

(** [transform_to_basis] in exact arithmetic.  [None] is the [ValueError]
    of [np.dot(vector, basis.T)] when the rows of [basis] are not as long as
    [vector]; a basis without rows is [np.array([])], of shape [(0,)], and
    fits no vector that has an entry. *)
Definition transform_to_basis (vector : Np.vec) (basis : list Np.vec)
    : option (Np.vec * Np.vec) :=
  if decide (fits_basis vector basis) then
    let projected_vector := dot_rows vector basis in
    let back_projected_vector := dot_matrix (length vector) projected_vector basis in
    let difference_vector := Np.sub vector back_projected_vector in
    Some (projected_vector, difference_vector)
  else None.





(** ** Gram-Schmidt and the change of basis in binary64

  The same code on the binary64 numbers of the Standard Library, whose
  [+], [-], [*], [/] and square root round to nearest as IEEE 754 and numpy
  do.  [np.dot] hands its sum to the BLAS library, which fixes the order of
  the additions; they are taken from left to right here. *)

Module F64.

Definition vec := list float.

(** The real number that a binary64 number is; 0 for an infinity or nan. *)
Definition to_R (x : float) : R :=
  match Prim2SF x with
  | S754_finite s m e => ((if s then -1 else 1) * IZR (Z.pos m) * powerRZ 2 e)%R
  | _ => 0%R
  end.

(** The real vectors that a list of binary64 vectors is. *)
Definition values (vs : list (list float)) : list (list R) :=
  (λ v : list float, to_R <$> v) <$> vs.

Definition zeros (d : nat) : vec := replicate d 0%float.

Definition add (a b : vec) : vec := zip_with PrimFloat.add a b.
Definition sub (a b : vec) : vec := zip_with PrimFloat.sub a b.
Definition scal (c : float) (a : vec) : vec := PrimFloat.mul c <$> a.
Definition divide (a : vec) (c : float) : vec := (λ x, PrimFloat.div x c) <$> a.

Definition dot (a b : vec) : float :=
  foldl (λ acc p, PrimFloat.add acc (PrimFloat.mul p.1 p.2)) 0%float (zip a b).
Definition norm (a : vec) : float := PrimFloat.sqrt (dot a a).

Definition array_sum (d : nat) (terms : list vec) : vec := foldl add (zeros d) terms.

Fixpoint gram_schmidt_loop (basis : list vec) (vectors : list vec) : list vec :=
  match vectors with
  | [] => basis
  | v :: vectors' =>
      let w := sub v (array_sum (length v) ((λ b, scal (dot v b) b) <$> basis)) in
      gram_schmidt_loop (basis ++ [divide w (norm w)]) vectors'
  end.

Definition gram_schmidt (vectors : list vec) : option (list vec) :=
  if decide (same_length vectors) then Some (gram_schmidt_loop [] vectors) else None.

Definition dot_rows (vector : vec) (basis : list vec) : vec := dot vector <$> basis.

Definition dot_matrix (d : nat) (p : vec) (basis : list vec) : vec :=
  (λ c, dot p ((λ row, default 0%float (row !! c)) <$> basis)) <$> seq 0 d.

Definition transform_to_basis (vector : vec) (basis : list vec) : option (vec * vec) :=
  if decide (fits_basis vector basis) then
    let projected_vector := dot_rows vector basis in
    let back_projected_vector := dot_matrix (length vector) projected_vector basis in
    let difference_vector := sub vector back_projected_vector in
    Some (projected_vector, difference_vector)
  else None.

(** Every entry of a residual is at most [atol] in absolute value. *)
Definition within_tolerance (atol : float) (difference : vec) : bool :=
  forallb (λ r, PrimFloat.leb (PrimFloat.abs r) atol) difference.

End F64.


(** ** The simplex-volume objective of [maximal_simplex_volume] *)

(** What [np.cov] hands to [eigvalsh]: a two-dimensional array, or the
    0-dimensional array that [squeeze] leaves of a single variance. *)
Inductive ndarray : Type :=
  | Array0d
  | Array2d (m : Np.matrix).

(** [mat[:, feature_mask.astype(bool)]] on one row and on a matrix: the
    entries at the positions where the mask is set.  [None] is the
    [IndexError] that numpy raises for a boolean index that does not have
    one entry per column. *)
Definition mask_row (mask : list bool) (row : Np.vec) : option Np.vec :=
  if decide (length mask = length row)
  then Some ((filter (λ p : bool * R, p.1 = true) (zip mask row)).*2)
  else None.

Definition mask_columns (mask : list bool) (mat : Np.matrix) : option Np.matrix :=
  mapM (mask_row mask) mat.

(** Column [j] of a matrix, and [np.mean(mat, axis=0)] for [d] columns. *)
Definition column (j : nat) (mat : Np.matrix) : Np.vec :=
  (λ row, default 0%R (row !! j)) <$> mat.

Definition mean (l : list R) : R := (Np.sum l / INR (length l))%R.

Definition column_means (d : nat) (mat : Np.matrix) : Np.vec :=
  (λ j, mean (column j mat)) <$> seq 0 d.

(** [np.var] of a one-dimensional array: the mean squared deviation. *)
Definition var (l : list R) : R :=
  mean ((λ x, (x - mean l) * (x - mean l))%R <$> l).

(** [np.prod] of a one-dimensional array. *)
Definition prod (l : list R) : R := foldr Rmult 1%R l.

(** The sample covariance of the [d] columns of a matrix (divisor: rows - 1). *)
Definition cov_matrix (d : nat) (mat : Np.matrix) : Np.matrix :=
  (λ j, (λ k,
     (Np.sum (zip_with (λ x y, (x - mean (column j mat)) * (y - mean (column k mat)))%R
                       (column j mat) (column k mat))
      / (INR (length mat) - 1))%R) <$> seq 0 d) <$> seq 0 d.

(** [np.cov(mat, rowvar=False)] for a matrix with [d] columns.  An empty
    matrix gives an empty array; a single row is read as one variable and a
    single column is one variable, and either way [squeeze] leaves a
    0-dimensional array. *)
Definition np_cov (d : nat) (mat : Np.matrix) : ndarray :=
  match mat with
  | [] => Array2d []
  | [_] => Array0d
  | _ => if decide (d = 1%nat) then Array0d else Array2d (cov_matrix d mat)
  end.

(** [np.amin] of a one-dimensional array; [None] is the [ValueError] on an
    empty array. *)
Definition amin (l : list R) : option R :=
  match l with
  | [] => None
  | x :: l' => Some (foldl Rmin x l')
  end.

(** [scipy.spatial.distance.pdist]: the Euclidean distances of all pairs of
    rows, in the order [(0,1), (0,2), ..., (1,2), ...]. *)
Fixpoint pdist (vs : list Np.vec) : list R :=
  match vs with
  | [] => []
  | v :: vs' => ((λ u, Np.norm (Np.sub v u)) <$> vs') ++ pdist vs'
  end.

(** The slice [l[a:b]] of a Python list or a numpy array. *)
Definition slice {A} (a b : nat) (l : list A) : list A := take (b - a) (drop a l).

(** [simplex_volume_recursive], with fuel for the depth of the recursion.
    [None] is an exception: an [IndexError], or the [RecursionError] of
    running out of depth. *)
Fixpoint simplex_volume_fuel (fuel : nat) (vectors : list Np.vec) : option R :=
  match fuel with
  | O => None
  | S fuel' =>
      let n := length vectors in
      if decide (n = 1%nat) then
        v0 ← vectors !! 0%nat; v0 !! 0%nat
      else
        base ← simplex_volume_fuel fuel' (slice 0 (n - 1) vectors);
        v_last ← last vectors;
        v_first ← vectors !! 0%nat;
        let height := Np.norm (Np.sub v_last v_first) in
        Some (base * height / INR n)%R
  end.

(** The recursion removes one vector per call, so its depth on a non-empty
    list is the length of the list; on the empty list Python recurses until
    [RecursionError], and the fuel [0] gives [None] as well. *)
Definition simplex_volume_recursive (vectors : list Np.vec) : option R :=
  simplex_volume_fuel (length vectors) vectors.

Section Objective.
Local Open Scope R_scope.

(** [np.linalg.eigvalsh]; [None] is [LinAlgError]. *)
Variable eigvalsh : ndarray → option (list R).

(** The per-class sample matrices of [maximal_simplex_volume]. *)
Variable class_mats : list Np.matrix.

Definition is_positive_semi_definite (matrix : ndarray) : bool :=
  match eigvalsh matrix with
  | Some eigenvalues => forallb (λ e, bool_decide (e >= 0)) eigenvalues
  | None => false
  end.

(** The list comprehension that builds [edges]: for the vertex at position
    [i], [i] copies of [v - masked_vectors[i]]. *)
Definition simplex_edges (masked_vectors : list Np.vec) : list Np.vec :=
  mjoin (imap (λ i v, replicate i (Np.sub v (default v (masked_vectors !! i))))
              masked_vectors).

(** One entry of [edge_variances]. *)
Definition edge_variance (d : nat) (masked_mats : list Np.matrix) (edge : Np.vec) : R :=
  let projections :=
    (λ masked_mat,
       (λ row, Np.dot (Np.sub row (column_means d masked_mat)) edge) <$> masked_mat)
    <$> masked_mats in
  let variances := var <$> projections in
  mean variances.

(** [scale_factor]: the sum over the vertices of the product of a slice of
    [edge_variances]. *)
Definition scale_factor (k : nat) (edge_variances : list R) : R :=
  let vertex_stdev_volumes :=
    (λ i, prod (slice (i * (k - 1)) ((i + 1) * (k - 1)) edge_variances)) <$> seq 0 k in
  Np.sum vertex_stdev_volumes.

(** [objective(feature_mask)]; [None] is an exception.  Past the masking
    every row has [d] entries, one per set bit of the mask, so the
    elementwise operations that follow meet arrays of one length. *)
Definition objective (feature_mask : list bool) : option R :=
  let d := set_bits feature_mask in
  masked_mats ← mapM (mask_columns feature_mask) class_mats;
  let masked_vectors := column_means d <$> masked_mats in
  let masked_cov_mats := np_cov d <$> masked_mats in
  let psd_stati := is_positive_semi_definite <$> masked_cov_mats in
  if negb (forallb (λ b : bool, b) psd_stati) then Some (10 / 10 ^ 10)
  else
    let edges := simplex_edges masked_vectors in
    let edge_variances := edge_variance d masked_mats <$> edges in
    let scale := scale_factor (length masked_vectors) edge_variances in
    base ← simplex_volume_recursive masked_vectors;
    let volume := base / scale in
    let pairwise_distances := pdist masked_vectors in
    d_max ← amax pairwise_distances;
    d_min ← amin pairwise_distances;
    let penalty := d_max / d_min in
    Some (volume / penalty).
End Objective.

(** Eigenvalues of the small symmetric arrays met in the examples, from the
    lower triangle as [eigvalsh] reads it: none for a 0-dimensional array
    ([LinAlgError]), the empty list for an empty array, the closed form for
    one and two rows.  Larger arrays are not needed and are answered like a
    failure. *)
Definition eigvalsh_small (a : ndarray) : option (list R) :=
  match a with
  | Array0d => None
  | Array2d [] => Some []
  | Array2d [[a]] => Some [a]
  | Array2d [[a; _]; [b; c]] =>
      let m := ((a + c) / 2)%R in
      let r := sqrt (((a - c) / 2) * ((a - c) / 2) + b * b)%R in
      Some [(m - r)%R; (m + r)%R]
  | Array2d _ => None
  end.

(** Two example classes of three samples and two features. *)
Definition class_a : Np.matrix := [[-2; -1]; [0; -1]; [-1; 2]]%R.
Definition class_b : Np.matrix := [[2; -1]; [4; -1]; [3; 2]]%R.

(** ** The normality filter *)

#[global] Instance cell_eq_decision : EqDecision cell.
Proof. solve_decision. Defined.

(** A feature table, column by column: the label of each column with its
    values, one per row.  Column labels are taken to be distinct, as the
    tables that Keraon loads are. *)
Abbreviation Table := (list (string * list cell)).

(** [df[name]]; [None] is [KeyError]. *)
Fixpoint get_column (name : string) (df : Table) : option (list cell) :=
  match df with
  | [] => None
  | (c, values) :: df' => if decide (c = name) then Some values else get_column name df'
  end.

(** [df.drop(name, axis=1)]. *)
Definition drop_column (name : string) (df : Table) : Table :=
  filter (λ c : string * list cell, c.1 ≠ name) df.

(** [series.unique()]: the distinct values in the order of first appearance. *)
Definition unique (l : list cell) : list cell :=
  foldl (λ acc x, if decide (x ∈ acc) then acc else acc ++ [x]) [] l.

(** Boolean indexing of one column, and [df[mask]] on a table. *)
Definition compress {A} (mask : list bool) (l : list A) : list A :=
  (filter (λ p : bool * A, p.1 = true) (zip mask l)).*2.

Definition filter_rows (mask : list bool) (df : Table) : Table :=
  (λ c : string * list cell, (c.1, compress mask c.2)) <$> df.

(** A row of the p-value table: the feature, its p-value for every
    phenotype, and (after the filter) its adjusted p-value. *)
Record p_row : Type := {
  roi : string;
  p_values : list R;
  p_adjusted : R
}.

(** [df[df['Subtype'] == phenotype].drop('Subtype', axis=1)]. *)
Definition phenotype_table (df : Table) (subtype_column : list cell) (phenotype : cell)
    : Table :=
  drop_column "Subtype"
    (filter_rows ((λ x, bool_decide (x = phenotype)) <$> subtype_column) df).

Section NormExp.
Local Open Scope R_scope.

(** [scipy.stats.shapiro(x).pvalue]. *)
Variable shapiro_pvalue : list cell → R.

(** The body of the two nested loops of [norm_exp]: the p-value of one
    feature in one phenotype table, 1.0 when there are fewer than 3 values. *)
Definition pheno_p_value (feature : string) (pheno_df : Table) : option R :=
  values ← get_column feature pheno_df;
  if decide (length values < 3)%nat then Some 1
  else Some (shapiro_pvalue values).

(** [norm_exp(df, direct, thresh)], without the file that it writes; [None]
    is an exception ([KeyError] without a ['Subtype'] column, [IndexError]
    on a table without rows). *)
Definition norm_exp (df : Table) (thresh : R) : option (Table * list p_row) :=
  subtype_column ← get_column "Subtype" df;
  let phenotypes := unique subtype_column in
  let pheno_dfs := phenotype_table df subtype_column <$> phenotypes in
  first_df ← pheno_dfs !! 0%nat;
  df_lpq ← mapM (λ feature,
                   ps ← mapM (pheno_p_value feature) pheno_dfs;
                   Some (feature, ps))
                first_df.*1;
  let df_lpq := filter (λ r : string * list R, Forall (λ p, p > thresh) r.2) df_lpq in
  let df_lpq := (λ r : string * list R,
                   {| roi := r.1; p_values := r.2; p_adjusted := 1 - mean r.2 |})
                <$> df_lpq in
  let common_columns := filter (λ c, c ∈ roi <$> df_lpq) df.*1 in
  out ← mapM (λ c, values ← get_column c df; Some (c, values)) common_columns;
  Some (out, df_lpq).
End NormExp.

(** An example feature table: three samples, two features. *)
Definition example_table : Table :=
  [("Subtype", [Str "ARPC"; Str "NEPC"; Str "ARPC"]);
   ("AR", [Num 1; Num 2; Num 3]);
   ("ASCL1", [Num 0; Num 5; Num 1])]%R.

(** ** Named pieces of the code above, for stating further properties *)

(** The value that [optimize_tfx] compares at a candidate: [ll]. *)
Definition negated_likelihood (logpdf : Np.vec → Np.vec → Np.matrix → R)
    (feature_vals mu_healthy : Np.vec) (cov_healthy : Np.matrix)
    (mu_subs : list Np.vec) (subtypes : list string) (try_tfx : R) : option R :=
  log_likelihoods ← calculate_log_likelihoods logpdf try_tfx feature_vals mu_healthy
                      cov_healthy mu_subs subtypes;
  Some (- Np.sum (exp <$> log_likelihoods))%R.

(** ** Points of the ROC curve *)

(** An elementwise operation on two one-dimensional arrays as numpy
    broadcasts them: position by position on equal lengths, an array of
    length one against every entry of the other; [None] is the [ValueError]
    of two shapes that do not go together. *)
Definition broadcast2 {A B C} (f : A → B → C) (a : list A) (b : list B)
    : option (list C) :=
  if decide (length a = length b) then Some (zip_with f a b)
  else match a, b with
       | [x], _ => Some (f x <$> b)
       | _, [y] => Some ((λ x, f x y) <$> a)
       | _, _ => None
       end.

(** [np.sum] of an array of booleans: the number of [True] entries. *)
Definition count_true (l : list bool) : nat := length (filter (λ b, b = true) l).

(** The quotient of two counts in numpy: [0 / 0] is [nan], with a warning
    and no exception. *)
Inductive quotient : Type :=
  | Nan
  | Quot (q : R).

Definition count_div (a b : nat) : quotient :=
  if decide (b = 0%nat) then Nan else Quot (INR a / INR b)%R.

(** [np.sum((y_pred == p) & (y_true == t))]. *)
Definition roc_count (p t : Z) (y_pred y_true : list Z) : option nat :=
  hits ← broadcast2 andb ((λ y, bool_decide (y = p)) <$> y_pred)
                         ((λ y, bool_decide (y = t)) <$> y_true);
  Some (count_true hits).

(** The body of the loop of [nroc_curve]: the false positive rate and the
    true positive rate at one threshold. *)
Definition roc_point (y_true : list Z) (predicted : list R) (threshold : R)
    : option (quotient * quotient) :=
  let y_pred := (λ x, if decide (x >= threshold)%R then 1%Z else 0%Z) <$> predicted in
  fp ← roc_count 1 0 y_pred y_true;
  tp ← roc_count 1 1 y_pred y_true;
  fn ← roc_count 0 1 y_pred y_true;
  tn ← roc_count 0 0 y_pred y_true;
  Some (count_div fp (fp + tn), count_div tp (tp + fn)).

(** [nroc_curve(y_true, predicted, num_thresh)] for a count [num_thresh]
    that is not negative; [None] is an exception, the [ZeroDivisionError]
    of [1 / num_thresh] or the [ValueError] of the loop body. *)
Definition nroc_curve (y_true : list Z) (predicted : list R) (num_thresh : nat)
    : option (list quotient * list quotient * list R) :=
  if decide (num_thresh = 0%nat) then None
  else
    let step := (1 / INR num_thresh)%R in
    let thresholds := Np.arange 0 (1 + step) step in
    points ← mapM (roc_point y_true predicted) thresholds;
    Some (points.*1, points.*2, thresholds).

(** ** Min/max standardization *)

(** The numbers of a column; [None] is the [TypeError] of arithmetic on a
    column that holds a string. *)
Definition numbers (values : list cell) : option (list R) :=
  mapM (λ c, match c with Num x => Some x | Str _ => None end) values.

(** The first loop of [minmax_standardize]: the minimum and the range of
    every column but ['Subtype'], written into the two dictionaries.
    [np.nanmin] and [np.nanmax] are [amin] and [amax] on a column without
    [nan]. *)
Fixpoint minmax_dicts (columns : Table) (min_dict range_dict : gmap string R)
    : option (gmap string R * gmap string R) :=
  match columns with
  | [] => Some (min_dict, range_dict)
  | (column, values) :: columns' =>
      if decide (column = "Subtype") then minmax_dicts columns' min_dict range_dict
      else
        xs ← numbers values;
        lo ← amin xs;
        hi ← amax xs;
        minmax_dicts columns' (<[column := lo]> min_dict)
                     (<[column := (hi - lo)%R]> range_dict)
  end.

(** The second loop: every column but ['Subtype'] that has a minimum in
    [min_dict] is shifted by it and divided by its range; [None] is the
    [KeyError] of a column without a range, or the [TypeError] of a column
    of strings.  (A range of 0 divides by zero, which numpy answers with
    [nan] or [inf] and a warning: that is outside the reals.) *)
Fixpoint minmax_scale (columns : Table) (min_dict range_dict : gmap string R)
    : option Table :=
  match columns with
  | [] => Some []
  | (column, values) :: columns' =>
      scaled ←
        (if decide (column ≠ "Subtype") then
           match min_dict !! column with
           | Some lo =>
               xs ← numbers values;
               range ← range_dict !! column;
               Some (Num <$> ((λ x, (x - lo) / range)%R <$> (xs : list R)))
           | None => Some values
           end
         else Some values);
      columns'' ← minmax_scale columns' min_dict range_dict;
      Some ((column, scaled) :: columns'')
  end.

(** [minmax_standardize(df, min_dict, range_dict)]: the dictionaries are
    computed from [df] unless both are supplied. *)
Definition minmax_standardize (df : Table) (min_dict range_dict : option (gmap string R))
    : option (Table * gmap string R * gmap string R) :=
  dicts ← match min_dict, range_dict with
          | Some m, Some r => Some (m, r)
          | _, _ => minmax_dicts df ∅ ∅
          end;
  df' ← minmax_scale df dicts.1 dicts.2;
  Some (df', dicts.1, dicts.2).

(** ** The likelihood never reads the supplied covariance *)

Section LikelihoodFacts.
Local Open Scope R_scope.
Variable logpdf : Np.vec → Np.vec → Np.matrix → R.

Lemma subtype_log_likelihood_shape tfx x mu_h cov cov' mu_subs subtypes s :
  Np.shape0 cov' = Np.shape0 cov →
  subtype_log_likelihood logpdf tfx x mu_h cov' mu_subs subtypes s
  = subtype_log_likelihood logpdf tfx x mu_h cov mu_subs subtypes s.
Proof. intros Hs. unfold subtype_log_likelihood. by rewrite Hs. Qed.

(** C1. Every entry of the list returned by [calculate_log_likelihoods] is
    the log-density of the feature vector under the mixture mean of its
    subtype and the identity matrix of dimension [cov_healthy.shape[0]];
    so two calls whose covariance arguments have the same shape return the
    same result (the same list, or the same failure), whatever the entries
    of the two matrices. *)
Theorem calculate_log_likelihoods_identity_cov tfx x mu_h cov mu_subs subtypes :
  (∀ lls, calculate_log_likelihoods logpdf tfx x mu_h cov mu_subs subtypes = Some lls →
     Forall2 (λ s ll, ∃ i mu_sub,
                index s subtypes = Some i ∧ mu_subs !! i = Some mu_sub ∧
                ll = logpdf x (Np.add (Np.scal tfx mu_sub) (Np.scal (1 - tfx) mu_h))
                       (Np.eye (Np.shape0 cov)))
             subtypes lls) ∧
  (∀ cov', Np.shape0 cov' = Np.shape0 cov →
     calculate_log_likelihoods logpdf tfx x mu_h cov' mu_subs subtypes
     = calculate_log_likelihoods logpdf tfx x mu_h cov mu_subs subtypes).
Proof.
  split.
  - intros lls Hl. apply mapM_Some in Hl.
    eapply Forall2_impl; [exact Hl|]. intros s ll Hs.
    unfold subtype_log_likelihood in Hs.
    destruct (index s subtypes) as [i|] eqn:Hi; [simpl in Hs|done].
    destruct (mu_subs !! i) as [mu_sub|] eqn:Hmu; [simpl in Hs|done].
    repeat case_decide; simplify_eq. eauto.
  - intros cov' Hs. unfold calculate_log_likelihoods.
    apply mapM_ext. intros s. by apply subtype_log_likelihood_shape.
Qed.
End LikelihoodFacts.

(** ** The grid of candidate tumor fractions *)

Lemma ceil_IZR (z : Z) : Np.ceil (IZR z) = z.
Proof.
  unfold Np.ceil.
  assert (H : (1 - z)%Z = up (- IZR z)).
  { apply tech_up; rewrite minus_IZR; simpl; lra. }
  rewrite <- H. lia.
Qed.

Lemma arange_tfx_grid :
  Np.arange 0 1.001 0.001 = (λ k : nat, (0 + INR k * 0.001)%R) <$> seq 0 1001.
Proof.
  unfold Np.arange.
  replace ((1.001 - 0) / 0.001)%R with (IZR 1001) by lra.
  by rewrite ceil_IZR.
Qed.

Lemma arange_tfx_grid_head : seq 0 1001 = 0%nat :: seq 1 1000.
Proof. reflexivity. Qed.

Lemma arange_tfx_grid_range (r : R) :
  r ∈ Np.arange 0 1.001 0.001 →
  ∃ k : nat, (k ≤ 1000)%nat ∧ r = (INR k * 0.001)%R.
Proof.
  rewrite arange_tfx_grid. intros Hr.
  apply list_elem_of_fmap in Hr as (k & -> & Hk).
  apply elem_of_seq in Hk. exists k. split; [lia | lra].
Qed.

Section GridSearchFacts.
Local Open Scope R_scope.
Variable logpdf : Np.vec → Np.vec → Np.matrix → R.

Lemma mixture_at_zero (t : R) (mu_sub mu_h : Np.vec) :
  t = 0 → length mu_sub = length mu_h →
  Np.add (Np.scal t mu_sub) (Np.scal (1 - t) mu_h) = mu_h.
Proof.
  intros ->. revert mu_sub. induction mu_h as [|a mu_h IH]; intros [|b mu_sub] Hlen;
    simplify_eq/=; [done|].
  unfold Np.add, Np.scal in *. simpl. f_equal; [lra | by apply IH].
Qed.

Lemma mixture_length (t : R) (mu_sub mu_h : Np.vec) :
  length mu_sub = length mu_h →
  length (Np.add (Np.scal t mu_sub) (Np.scal (1 - t) mu_h)) = length mu_h.
Proof.
  intros Hlen. unfold Np.add, Np.scal.
  rewrite length_zip_with, !length_fmap. lia.
Qed.

(** With one entry per feature in every array, a pass of the loop body
    raises nothing and returns the log-density under the identity
    covariance. *)
Lemma subtype_log_likelihood_returns tfx x mu_h cov mu_subs subtypes s i mu_sub :
  index s subtypes = Some i → mu_subs !! i = Some mu_sub →
  length x = Np.shape0 cov → length mu_h = Np.shape0 cov →
  length mu_sub = Np.shape0 cov →
  subtype_log_likelihood logpdf tfx x mu_h cov mu_subs subtypes s
  = Some (logpdf x (Np.add (Np.scal tfx mu_sub) (Np.scal (1 - tfx) mu_h))
            (Np.eye (Np.shape0 cov))).
Proof.
  intros Hi Hmu Hx Hh Hsub. unfold subtype_log_likelihood.
  rewrite Hi. simpl. rewrite Hmu. simpl.
  rewrite decide_True by congruence.
  rewrite decide_True; [done|].
  split; [|done]. rewrite mixture_length; congruence.
Qed.

Lemma index_is_Some (s : string) (l : list string) :
  s ∈ l → ∃ i, index s l = Some i ∧ (i < length l)%nat.
Proof.
  induction l as [|y l IH]; intros Hin; [by apply elem_of_nil in Hin|].
  simpl. destruct (decide (y = s)) as [->|Hne].
  - exists 0%nat. split; [done | lia].
  - apply elem_of_cons in Hin as [->|Hin]; [done|].
    destruct (IH Hin) as (i & -> & Hi). exists (S i). split; [done | lia].
Qed.

Lemma calculate_log_likelihoods_is_Some tfx x mu_h cov (mu_subs : list Np.vec) subtypes :
  (length subtypes ≤ length mu_subs)%nat →
  length x = Np.shape0 cov → length mu_h = Np.shape0 cov →
  Forall (λ mu : Np.vec, length mu = Np.shape0 cov) mu_subs →
  is_Some (calculate_log_likelihoods logpdf tfx x mu_h cov mu_subs subtypes).
Proof.
  intros Hlen Hx Hh Hsubs. unfold calculate_log_likelihoods. apply mapM_is_Some.
  apply Forall_forall. intros s Hs.
  destruct (index_is_Some s subtypes Hs) as (i & Hi & Hlt).
  destruct (lookup_lt_is_Some_2 mu_subs i) as [mu Hmu]; [lia|].
  unfold compose.
  rewrite (subtype_log_likelihood_returns tfx x mu_h cov mu_subs subtypes s i mu);
    [by eexists | done..|].
  exact (Forall_lookup_1 _ _ _ _ Hsubs Hmu).
Qed.

Lemma optimize_tfx_loop_is_Some x mu_h cov (mu_subs : list Np.vec) subtypes grid best_tfx best_ll :
  (length subtypes ≤ length mu_subs)%nat →
  length x = Np.shape0 cov → length mu_h = Np.shape0 cov →
  Forall (λ mu : Np.vec, length mu = Np.shape0 cov) mu_subs →
  is_Some (optimize_tfx_loop logpdf x mu_h cov mu_subs subtypes grid best_tfx best_ll).
Proof.
  intros Hlen Hx Hh Hsubs. revert best_tfx best_ll.
  induction grid as [|t grid IH]; intros best_tfx best_ll; simpl; [by eexists|].
  destruct (calculate_log_likelihoods_is_Some t x mu_h cov mu_subs subtypes
              Hlen Hx Hh Hsubs) as [lls ->].
  simpl. destruct (lt_bound _ _); apply IH.
Qed.

Lemma optimize_tfx_loop_elem x mu_h cov mu_subs subtypes grid best_tfx best_ll r :
  optimize_tfx_loop logpdf x mu_h cov mu_subs subtypes grid best_tfx best_ll = Some r →
  r = best_tfx ∨ r ∈ grid.
Proof.
  revert best_tfx best_ll.
  induction grid as [|t grid IH]; intros best_tfx best_ll; simpl.
  - intros [= ->]. by left.
  - destruct (calculate_log_likelihoods _ _ _ _ _ _ _) as [lls|]; [simpl|done].
    destruct (lt_bound _ _); intros Hr; apply IH in Hr as [->|Hr];
      auto using list_elem_of_here, list_elem_of_further.
Qed.

(** C2. On the data of the specification, where every subtype has a mean and
    the feature vector, the healthy mean and every subtype mean have one
    entry per row of the healthy covariance, [optimize_tfx] raises nothing
    and returns a value; and whenever it returns, the value is one of the
    1001 grid points [k * 0.001], [k = 0 .. 1000], so it lies in the closed
    interval from 0 to 1.  On arrays whose lengths differ the call raises
    and returns nothing. *)
Theorem optimize_tfx_in_grid x mu_h cov (mu_subs : list Np.vec) subtypes :
  ((length subtypes ≤ length mu_subs)%nat →
   (0 < Np.shape0 cov)%nat →
   length x = Np.shape0 cov → length mu_h = Np.shape0 cov →
   Forall (λ mu : Np.vec, length mu = Np.shape0 cov) mu_subs →
     is_Some (optimize_tfx logpdf x mu_h cov mu_subs subtypes)) ∧
  length (Np.arange 0 1.001 0.001) = 1001%nat ∧
  ∀ r, optimize_tfx logpdf x mu_h cov mu_subs subtypes = Some r →
       r ∈ Np.arange 0 1.001 0.001 ∧
       (∃ k : nat, (k ≤ 1000)%nat ∧ r = INR k * 0.001) ∧
       0 <= r <= 1.
Proof.
  split; [|split].
  - intros Hlen _ Hx Hh Hsubs. by apply optimize_tfx_loop_is_Some.
  - rewrite arange_tfx_grid. by rewrite length_fmap, length_seq.
  - intros r Hr. unfold optimize_tfx in Hr.
    apply optimize_tfx_loop_elem in Hr.
    assert (Hin : r ∈ Np.arange 0 1.001 0.001).
    { destruct Hr as [->|Hr]; [|done].
      rewrite arange_tfx_grid. apply list_elem_of_fmap. exists 0%nat.
      split; [simpl; lra | apply elem_of_seq; lia]. }
    split; [done|].
    destruct (arange_tfx_grid_range r Hin) as (k & Hk & ->).
    split; [eauto|].
    assert (0 <= INR k) by apply pos_INR.
    assert (INR k <= INR 1000) by (apply le_INR; lia).
    replace (INR 1000) with 1000 in * by (simpl; lra). lra.
Qed.
End GridSearchFacts.

(** ** A sample that equals the healthy mean *)

Section HealthySample.
Local Open Scope R_scope.
Variable logpdf : Np.vec → Np.vec → Np.matrix → R.

Lemma sum_exp_le (lls : list R) (L : R) :
  Forall (λ l, l <= L) lls →
  Np.sum (exp <$> lls) <= INR (length lls) * exp L.
Proof.
  induction 1 as [|l lls Hl _ IH]; [simpl; lra|].
  rewrite fmap_cons. cbn [Np.sum foldr length]. rewrite S_INR.
  fold (Np.sum (exp <$> lls)).
  assert (exp l <= exp L).
  { destruct Hl as [Hl| ->]; [left; by apply exp_increasing | right; done]. }
  lra.
Qed.

Lemma sum_exp_replicate (n : nat) (L : R) :
  Np.sum (exp <$> replicate n L) = INR n * exp L.
Proof.
  induction n as [|n IH]; [simpl; lra|].
  cbn [replicate]. rewrite fmap_cons. cbn [Np.sum foldr]. rewrite S_INR.
  fold (Np.sum (exp <$> replicate n L)). rewrite IH. lra.
Qed.

Hypothesis logpdf_peak : ∀ (d : nat) (x m : Np.vec),
  length x = d → length m = d → logpdf x m (Np.eye d) <= logpdf x x (Np.eye d).

Variables (mu_h : Np.vec) (cov : Np.matrix) (mu_subs : list Np.vec) (subtypes : list string).
Hypothesis mu_subs_enough : (length subtypes ≤ length mu_subs)%nat.
Hypothesis mu_subs_dim : Forall (λ mu, length mu = length mu_h) mu_subs.
Hypothesis cov_dim : Np.shape0 cov = length mu_h.

Lemma mu_subs_cov_dim : Forall (λ mu : Np.vec, length mu = Np.shape0 cov) mu_subs.
Proof. eapply Forall_impl; [exact mu_subs_dim|]. intros mu Hmu. simpl. congruence. Qed.

Lemma log_likelihoods_is_Some t :
  is_Some (calculate_log_likelihoods logpdf t mu_h mu_h cov mu_subs subtypes).
Proof.
  apply calculate_log_likelihoods_is_Some; [exact mu_subs_enough | done..|].
  exact mu_subs_cov_dim.
Qed.

Lemma log_likelihoods_bounded t lls :
  calculate_log_likelihoods logpdf t mu_h mu_h cov mu_subs subtypes = Some lls →
  length lls = length subtypes ∧
  Forall (λ l, l <= logpdf mu_h mu_h (Np.eye (length mu_h))) lls.
Proof.
  intros Hl. apply mapM_Some in Hl. split; [symmetry; by eapply Forall2_length|].
  eapply Forall2_Forall_r; [exact Hl|]. apply Forall_forall. intros s _ l Hs.
  unfold subtype_log_likelihood in Hs. rewrite cov_dim in Hs.
  destruct (index s subtypes) as [i|]; [simpl in Hs|done].
  destruct (mu_subs !! i) as [mu|] eqn:Hmu; [simpl in Hs|done].
  repeat case_decide; simplify_eq.
  apply logpdf_peak; [done|]. apply mixture_length.
  exact (Forall_lookup_1 _ _ _ _ mu_subs_dim Hmu).
Qed.

Lemma log_likelihoods_at_zero t lls :
  t = 0 →
  calculate_log_likelihoods logpdf t mu_h mu_h cov mu_subs subtypes = Some lls →
  lls = replicate (length subtypes) (logpdf mu_h mu_h (Np.eye (length mu_h))).
Proof.
  intros Ht Hl. apply mapM_Some in Hl.
  assert (Hall : Forall (λ l, l = logpdf mu_h mu_h (Np.eye (length mu_h))) lls).
  { eapply Forall2_Forall_r; [exact Hl|]. apply Forall_forall. intros s _ l Hs.
    unfold subtype_log_likelihood in Hs. rewrite cov_dim in Hs.
    destruct (index s subtypes) as [i|]; [simpl in Hs|done].
    destruct (mu_subs !! i) as [mu|] eqn:Hmu; [simpl in Hs|done].
    assert (Hdim : length mu = length mu_h).
    { exact (Forall_lookup_1 _ _ _ _ mu_subs_dim Hmu). }
    repeat case_decide; simplify_eq.
    by rewrite mixture_at_zero. }
  apply Forall2_length in Hl. rewrite Hl. clear Hl.
  induction Hall as [|l lls Heq _ IH]; [done|]. subst l. simpl. by rewrite <- IH.
Qed.

Lemma optimize_tfx_loop_keeps grid best_tfx :
  optimize_tfx_loop logpdf mu_h mu_h cov mu_subs subtypes grid best_tfx
    (Finite (- (INR (length subtypes) * exp (logpdf mu_h mu_h (Np.eye (length mu_h))))))
  = Some best_tfx.
Proof.
  induction grid as [|t grid IH]; [done|]. simpl.
  destruct (log_likelihoods_is_Some t) as [lls Hlls].
  rewrite Hlls. simpl.
  destruct (log_likelihoods_bounded t lls Hlls) as [Hlen Hle].
  apply sum_exp_le in Hle. rewrite Hlen in Hle.
  rewrite bool_decide_eq_false_2; [exact IH | lra].
Qed.

Lemma optimize_tfx_loop_first t grid best_tfx :
  t = 0 →
  optimize_tfx_loop logpdf mu_h mu_h cov mu_subs subtypes (t :: grid) best_tfx PosInf
  = Some t.
Proof.
  intros Ht. simpl.
  destruct (log_likelihoods_is_Some t) as [lls Hlls].
  rewrite Hlls. simpl.
  apply log_likelihoods_at_zero in Hlls; [|done]. subst lls.
  rewrite sum_exp_replicate. apply optimize_tfx_loop_keeps.
Qed.

(** C3. When the feature vector is the healthy mean, [optimize_tfx] returns
    exactly 0, the first grid point: there every mixture mean is the feature
    vector itself, so the negated likelihood sum is least, and no later
    candidate is strictly below it.  The log-density is any function that,
    under an identity covariance, is greatest at its mean. *)
Theorem optimize_tfx_healthy_mean :
  optimize_tfx logpdf mu_h mu_h cov mu_subs subtypes = Some 0.
Proof.
  unfold optimize_tfx. rewrite arange_tfx_grid, arange_tfx_grid_head, fmap_cons.
  assert (H0 : 0 + INR 0 * 0.001 = 0) by (simpl; lra).
  rewrite optimize_tfx_loop_first by exact H0. by rewrite H0.
Qed.
End HealthySample.

(** ** The diagonal normal log-density is a log-density of the expected kind *)

Section DiagonalNormal.
Local Open Scope R_scope.

Lemma diagonal_eye (d : nat) : diagonal (Np.eye d) = replicate d 1.
Proof.
  apply list_eq. intros i. unfold diagonal, Np.eye.
  rewrite list_lookup_imap, list_lookup_fmap.
  destruct (decide (i < d)%nat) as [Hlt|Hge].
  - rewrite lookup_seq_lt by done. simpl.
    rewrite list_lookup_fmap, lookup_seq_lt by done. simpl.
    rewrite decide_True by done. symmetry. by apply lookup_replicate_2.
  - rewrite lookup_seq_ge by lia. simpl. symmetry.
    apply lookup_replicate_None. lia.
Qed.

Lemma sum_squares_nonneg (a : Np.vec) (n : nat) :
  0 <= Np.sum (zip_with (λ d v, d * d / v) a (replicate n 1)).
Proof.
  revert n. induction a as [|x a IH]; intros [|n]; simpl; try lra.
  specialize (IH n). fold (Np.sum (zip_with (λ d v, d * d / v) a (replicate n 1))).
  assert (0 <= x * x) by nra. lra.
Qed.

Lemma sum_squares_diag_zero (x : Np.vec) (n : nat) :
  Np.sum (zip_with (λ d v, d * d / v) (Np.sub x x) (replicate n 1)) = 0.
Proof.
  revert n. induction x as [|a x IH]; intros [|n]; simpl; try done.
  fold (Np.sum (zip_with (λ d v, d * d / v) (zip_with Rminus x x) (replicate n 1))).
  fold (Np.sub x x). rewrite IH. lra.
Qed.

Lemma diag_normal_logpdf_peak (d : nat) (x m : Np.vec) :
  length x = d → length m = d →
  diag_normal_logpdf x m (Np.eye d) <= diag_normal_logpdf x x (Np.eye d).
Proof.
  intros _ _. unfold diag_normal_logpdf. rewrite diagonal_eye.
  rewrite sum_squares_diag_zero.
  pose proof (sum_squares_nonneg (Np.sub x m) d). lra.
Qed.
End DiagonalNormal.

Section LikelihoodWitnesses.
Local Open Scope R_scope.

Lemma calculate_log_likelihoods_identity_cov_witness :
  calculate_log_likelihoods diag_normal_logpdf 0.5 [1; 2] [0; 0]
    [[9; 1]; [1; 4]] [[3; 4]; [0; 1]] ["A"; "B"]
  = calculate_log_likelihoods diag_normal_logpdf 0.5 [1; 2] [0; 0]
    [[2; 0]; [0; 7]] [[3; 4]; [0; 1]] ["A"; "B"].
Proof.
  apply (calculate_log_likelihoods_identity_cov diag_normal_logpdf).
  reflexivity.
Defined.

Lemma optimize_tfx_in_grid_witness :
  is_Some (optimize_tfx diag_normal_logpdf [1; 2] [0; 0] [[2; 0]; [0; 7]]
             [[3; 4]; [0; 1]] ["A"; "B"]).
Proof.
  apply (optimize_tfx_in_grid diag_normal_logpdf).
  - simpl. lia.
  - simpl. lia.
  - reflexivity.
  - reflexivity.
  - repeat constructor.
Defined.

Lemma optimize_tfx_healthy_mean_witness :
  optimize_tfx diag_normal_logpdf [1; 2] [1; 2] [[2; 0]; [0; 7]]
    [[3; 4]; [0; 1]] ["A"; "B"] = Some 0.
Proof.
  apply (optimize_tfx_healthy_mean diag_normal_logpdf diag_normal_logpdf_peak).
  - simpl. lia.
  - repeat constructor.
  - reflexivity.
Defined.
End LikelihoodWitnesses.

(** ** The prediction step *)

Section Prediction.
Local Open Scope R_scope.

Lemma loc_set_other_row (df : DataFrame) row col v r :
  r ≠ row → loc_set df row col v !! r = df !! r.
Proof. intros Hne. unfold loc_set. by rewrite lookup_insert_ne. Qed.

Lemma loc_get_set_eq (df : DataFrame) row col v :
  loc_get (loc_set df row col v) row col = Some v.
Proof. unfold loc_get, loc_set. rewrite lookup_insert_eq. simpl. by rewrite lookup_insert_eq. Qed.

Lemma loc_get_set_ne (df : DataFrame) row col v row' col' :
  (row', col') ≠ (row, col) →
  loc_get (loc_set df row col v) row' col' = loc_get df row' col'.
Proof.
  intros Hne. unfold loc_get, loc_set.
  destruct (decide (row' = row)) as [->|Hr].
  - rewrite lookup_insert_eq. simpl.
    rewrite lookup_insert_ne by congruence.
    destruct (df !! row); [done|]. simpl. by rewrite lookup_empty.
  - by rewrite lookup_insert_ne.
Qed.

Lemma prediction_loop_other_row predictions sample weights subtypes rest m ms r :
  r ≠ sample →
  (prediction_loop predictions sample weights subtypes rest m ms).1 !! r = predictions !! r.
Proof.
  intros Hne. revert predictions m ms.
  induction rest as [|s rest IH]; intros predictions m ms; simpl; [done|].
  destruct (index s subtypes ≫= _) as [w|]; [|done].
  case_bool_decide; rewrite IH; by apply loc_set_other_row.
Qed.

Lemma prediction_loop_other_col predictions sample weights subtypes rest m ms row col :
  col ∉ rest →
  loc_get (prediction_loop predictions sample weights subtypes rest m ms).1 row col
  = loc_get predictions row col.
Proof.
  revert predictions m ms.
  induction rest as [|s rest IH]; intros predictions m ms Hcol; simpl; [done|].
  apply not_elem_of_cons in Hcol as [Hs Hrest].
  destruct (index s subtypes ≫= _) as [w|]; [|done].
  case_bool_decide; rewrite IH by done; apply loc_get_set_ne; congruence.
Qed.

(** What the running maximum of the loop ends with, over the labels that are
    still to be visited. *)
Lemma prediction_loop_top predictions sample weights subtypes rest m ms predictions' top :
  prediction_loop predictions sample weights subtypes rest m ms = (predictions', Some top) →
  (top = ms ∧
   ∀ s, s ∈ rest → ∃ w, rounded_weight weights subtypes s = Some w ∧ w <= m)
  ∨ (∃ pre post w_top,
       rest = pre ++ top :: post ∧
       rounded_weight weights subtypes top = Some w_top ∧ w_top > m ∧
       (∀ s, s ∈ pre → ∃ w, rounded_weight weights subtypes s = Some w ∧ w < w_top) ∧
       (∀ s, s ∈ post → ∃ w, rounded_weight weights subtypes s = Some w ∧ w <= w_top)).
Proof.
  revert predictions m ms.
  induction rest as [|s rest IH]; intros predictions m ms; simpl.
  - intros [= _ ->]. left. split; [done|]. intros s Hs. by apply elem_of_nil in Hs.
  - destruct (index s subtypes ≫= _) as [w|] eqn:Hw; [|done].
    assert (Hrw : rounded_weight weights subtypes s = Some (round w 4)).
    { unfold rounded_weight. by rewrite Hw. }
    case_bool_decide as Hgt; intros Hloop; apply IH in Hloop.
    + destruct Hloop as [[-> Hall] | (pre & post & w_top & -> & Htop & Hgt' & Hpre & Hpost)].
      * right. exists [], rest, (round w 4).
        split; [done|]. split; [done|]. split; [done|]. split.
        -- intros s' Hs'. by apply elem_of_nil in Hs'.
        -- intros s' Hs'. destruct (Hall s' Hs') as (w' & ? & ?). eauto.
      * right. exists (s :: pre), post, w_top.
        split; [done|]. split; [done|]. split; [lra|]. split; [|done].
        intros s' Hs'. apply elem_of_cons in Hs' as [->|Hs']; [|by apply Hpre].
        exists (round w 4). split; [done | lra].
    + destruct Hloop as [[-> Hall] | (pre & post & w_top & -> & Htop & Hgt' & Hpre & Hpost)].
      * left. split; [done|]. intros s' Hs'.
        apply elem_of_cons in Hs' as [->|Hs']; [|by apply Hall].
        exists (round w 4). split; [done | lra].
      * right. exists (s :: pre), post, w_top.
        split; [done|]. split; [done|]. split; [done|]. split; [|done].
        intros s' Hs'. apply elem_of_cons in Hs' as [->|Hs']; [|by apply Hpre].
        exists (round w 4). split; [done | lra].
Qed.
End Prediction.

Section PredictionClaims.
Local Open Scope R_scope.

Lemma softmax_length (lls weights : list R) :
  softmax lls = Some weights → length weights = length lls.
Proof.
  unfold softmax. destruct (amax lls) as [x_max|]; [simpl|done].
  intros [= <-]. by rewrite !length_fmap.
Qed.

Lemma softmax_is_Some (lls : list R) : lls ≠ [] → is_Some (softmax lls).
Proof. destruct lls as [|l lls]; [done|]. intros _. by eexists. Qed.

Lemma prediction_loop_returns predictions sample (weights : list R) subtypes rest m ms :
  rest ⊆ subtypes → (length subtypes ≤ length weights)%nat →
  is_Some (prediction_loop predictions sample weights subtypes rest m ms).2.
Proof.
  intros Hsub Hlen. revert predictions m ms Hsub.
  induction rest as [|s rest IH]; intros predictions m ms Hsub; simpl; [by eexists|].
  destruct (index_is_Some s subtypes) as (i & -> & Hi); [apply Hsub; left|].
  simpl. destruct (lookup_lt_is_Some_2 weights i) as [w ->]; [lia|].
  assert (rest ⊆ subtypes) by (intros s' Hs'; apply Hsub; by right).
  case_bool_decide; by apply IH.
Qed.

(** The call returns when there is a log-likelihood for every subtype. *)
Lemma update_predictions_returns predictions sample tfx tfx_shifted lls subtypes :
  lls ≠ [] → (length subtypes ≤ length lls)%nat →
  (update_predictions predictions sample tfx tfx_shifted lls subtypes).2 = true.
Proof.
  intros Hne Hlen. unfold update_predictions.
  destruct (softmax_is_Some lls Hne) as [weights Hw]. rewrite Hw.
  apply softmax_length in Hw.
  match goal with |- context [prediction_loop ?p ?s ?w ?l ?r ?m ?ms] =>
    destruct (prediction_loop_returns p s w l r m ms) as [top Htop]; [done | lia |];
    destruct (prediction_loop p s w l r m ms) as [p' [top'|]] end; [done|].
  simpl in Htop. done.
Qed.

(** C4. When [update_predictions] returns, the label written to the
    ['Prediction'] cell of the sample is decided by the rounded softmax
    weights alone.  If no subtype has a rounded weight above 0 the label is
    ['NoSolution'].  If some subtype has one, the label is a subtype whose
    rounded weight is above 0, at least the rounded weight of every other
    subtype and strictly above that of every subtype listed before it.  So,
    for subtype lists that do not use the sentinel as a label,
    ['NoSolution'] is written exactly when no rounded weight is above 0. *)
Theorem update_predictions_top predictions sample tfx tfx_shifted lls subtypes weights :
  softmax lls = Some weights →
  (update_predictions predictions sample tfx tfx_shifted lls subtypes).2 = true →
  ∃ top,
    loc_get (update_predictions predictions sample tfx tfx_shifted lls subtypes).1
      sample "Prediction" = Some (Str top) ∧
    ((∀ s, s ∈ subtypes → ∃ w, rounded_weight weights subtypes s = Some w ∧ w <= 0) →
       top = "NoSolution") ∧
    ((∃ s w, s ∈ subtypes ∧ rounded_weight weights subtypes s = Some w ∧ w > 0) →
       ∃ pre post w_top,
         subtypes = pre ++ top :: post ∧
         rounded_weight weights subtypes top = Some w_top ∧ w_top > 0 ∧
         (∀ s, s ∈ pre → ∃ w, rounded_weight weights subtypes s = Some w ∧ w < w_top) ∧
         (∀ s, s ∈ post → ∃ w, rounded_weight weights subtypes s = Some w ∧ w <= w_top)) ∧
    ("NoSolution" ∉ subtypes →
       (top = "NoSolution" ↔
        ∀ s, s ∈ subtypes → ∃ w, rounded_weight weights subtypes s = Some w ∧ w <= 0)).
Proof.
  intros Hw. unfold update_predictions. rewrite Hw.
  match goal with |- context [prediction_loop ?p ?s ?w ?l ?r ?m ?ms] =>
    destruct (prediction_loop p s w l r m ms) as [p' [top|]] eqn:Hloop end; [|done].
  intros _. exists top. cbn [fst]. split; [apply loc_get_set_eq|].
  apply prediction_loop_top in Hloop.
  assert (Hcase_b : (∃ pre post w_top,
             subtypes = pre ++ top :: post ∧
             rounded_weight weights subtypes top = Some w_top ∧ w_top > 0 ∧
             (∀ s, s ∈ pre → ∃ w, rounded_weight weights subtypes s = Some w ∧ w < w_top) ∧
             (∀ s, s ∈ post → ∃ w, rounded_weight weights subtypes s = Some w ∧ w <= w_top)) →
           top ∈ subtypes ∧ ∃ w, rounded_weight weights subtypes top = Some w ∧ w > 0).
  { intros (pre & post & w_top & -> & Htop & Hgt & _). split; [|eauto].
    apply elem_of_app. right. by left. }
  assert (Hno : (∀ s, s ∈ subtypes → ∃ w, rounded_weight weights subtypes s = Some w ∧ w <= 0) →
                top = "NoSolution").
  { intros Hall. destruct Hloop as [[-> _]|Hb]; [done|].
    destruct (Hcase_b Hb) as (Hin & w & Hrw & Hgt).
    destruct (Hall top Hin) as (w' & Hrw' & Hle). simplify_eq. lra. }
  split; [done|]. split.
  - intros (s & w & Hs & Hrw & Hgt). destruct Hloop as [[_ Hall]|Hb]; [|done].
    destruct (Hall s Hs) as (w' & Hrw' & Hle). simplify_eq. lra.
  - intros Hsent. split; [|done]. intros ->.
    destruct Hloop as [[_ Hall]|Hb]; [done|].
    by destruct (Hcase_b Hb) as [Hin _].
Qed.

Lemma update_predictions_top_witness :
  ∃ top,
    loc_get (update_predictions ∅ "S1" 0.25 0.5 [0; 1] ["ARPC"; "NEPC"]).1
      "S1" "Prediction" = Some (Str top).
Proof.
  destruct (update_predictions_top ∅ "S1" 0.25 0.5 [0; 1] ["ARPC"; "NEPC"] _ eq_refl)
    as (top & Htop & _).
  - apply update_predictions_returns; [done | simpl; lia].
  - by exists top.
Defined.

(** C10. [update_predictions] leaves every row other than the sample's as it
    was, also when it raises midway; and within the sample's row it leaves
    every cell whose column is not ['TFX'], ['TFX_shifted'], ['Prediction']
    or a subtype label as it was. *)
Theorem update_predictions_frame predictions sample tfx tfx_shifted lls subtypes :
  (∀ r, r ≠ sample →
     (update_predictions predictions sample tfx tfx_shifted lls subtypes).1 !! r
     = predictions !! r) ∧
  (∀ col, col ∉ "TFX" :: "TFX_shifted" :: "Prediction" :: subtypes →
     loc_get (update_predictions predictions sample tfx tfx_shifted lls subtypes).1
       sample col
     = loc_get predictions sample col).
Proof.
  unfold update_predictions. destruct (softmax lls) as [weights|]; [|done].
  split.
  - intros r Hne.
    match goal with |- context [prediction_loop ?p ?s ?w ?l ?rs ?m ?ms] =>
      pose proof (prediction_loop_other_row p s w l rs m ms r Hne) as Hrow;
      destruct (prediction_loop p s w l rs m ms) as [p' [top|]] end;
      cbn [fst] in *; rewrite ?loc_set_other_row by done;
      rewrite Hrow; by rewrite !loc_set_other_row.
  - intros col Hcol.
    apply not_elem_of_cons in Hcol as [H1 Hcol].
    apply not_elem_of_cons in Hcol as [H2 Hcol].
    apply not_elem_of_cons in Hcol as [H3 Hcol].
    match goal with |- context [prediction_loop ?p ?s ?w ?l ?rs ?m ?ms] =>
      pose proof (prediction_loop_other_col p s w l rs m ms sample col Hcol) as Hc;
      destruct (prediction_loop p s w l rs m ms) as [p' [top|]] end;
      cbn [fst] in *; rewrite ?loc_get_set_ne by congruence;
      rewrite Hc; rewrite !loc_get_set_ne by congruence; done.
Qed.

Lemma update_predictions_frame_witness :
  (update_predictions {[ "S0" := {[ "TFX" := Num 1 ]} ]} "S1" 0.25 0.5 [0; 1]
     ["ARPC"; "NEPC"]).1 !! "S0"
  = Some {[ "TFX" := Num 1 ]}.
Proof.
  destruct (update_predictions_frame {[ "S0" := {[ "TFX" := Num 1 ]} ]} "S1" 0.25 0.5
              [0; 1] ["ARPC"; "NEPC"]) as [Hrows _].
  rewrite Hrows; [apply lookup_singleton_eq | done].
Defined.
End PredictionClaims.

(** ** Greedy maximisation: masks and their bit counts *)

Lemma bits_length (mask : list bool) : (set_bits mask + unset_bits mask)%nat = length mask.
Proof.
  unfold set_bits, unset_bits. induction mask as [|[] mask IH]; [done|..];
    rewrite !filter_cons; repeat case_decide; try done; simpl; lia.
Qed.

Lemma unset_bits_insert (mask : list bool) (i : nat) :
  mask !! i = Some false →
  S (unset_bits (<[i := true]> mask)) = unset_bits mask.
Proof.
  unfold unset_bits. revert i. induction mask as [|b mask IH]; intros [|i] Hi;
    simplify_eq/=.
  - rewrite !filter_cons. repeat case_decide; try done.
  - specialize (IH i Hi). rewrite !filter_cons. case_decide; simpl; lia.
Qed.

Lemma insert_keeps_set (mask : list bool) (i j : nat) :
  mask !! j = Some true → <[i := true]> mask !! j = Some true.
Proof.
  intros Hj. destruct (decide (i = j)) as [->|Hne].
  - apply list_lookup_insert_eq. by eapply lookup_lt_Some.
  - by rewrite list_lookup_insert_ne.
Qed.

Lemma combinations_sublist (l : list nat) (k : nat) (c : list nat) :
  c ∈ combinations l k → c `sublist_of` l ∧ length c = k.
Proof.
  revert k c. induction l as [|x l IH]; intros [|k] c; simpl.
  - intros ->%list_elem_of_singleton. done.
  - intros Hc. by apply elem_of_nil in Hc.
  - intros ->%list_elem_of_singleton. split; [apply sublist_nil_l | done].
  - intros [Hc|Hc]%elem_of_app.
    + apply list_elem_of_fmap in Hc as (c' & -> & Hc').
      destruct (IH k c' Hc') as [Hsub Hlen].
      split; [by apply sublist_skip | simpl; lia].
    + destruct (IH (S k) c Hc) as [Hsub Hlen].
      split; [by apply sublist_cons | done].
Qed.

Lemma combinations_nonempty (l : list nat) (k : nat) :
  (k ≤ length l)%nat → combinations l k ≠ [].
Proof.
  revert k. induction l as [|x l IH]; intros [|k] Hk; simpl in *; try done; [lia|].
  intros Hnil. apply app_eq_nil in Hnil as [Hnil _].
  apply fmap_nil_inv in Hnil. revert Hnil. apply IH. lia.
Qed.

Lemma mask_bits_of_sublist (l idx : list nat) :
  NoDup l → idx `sublist_of` l →
  set_bits ((λ i, bool_decide (i ∈ idx)) <$> l) = length idx.
Proof.
  intros Hnd Hsub. unfold set_bits.
  induction Hsub as [|x idx l Hsub IH|x idx l Hsub IH].
  - done.
  - apply NoDup_cons in Hnd as [Hx Hnd].
    rewrite fmap_cons, filter_cons_True by (apply bool_decide_eq_true; left).
    simpl. f_equal. rewrite <- (IH Hnd). f_equal. f_equal.
    apply Forall_fmap_ext_1, Forall_forall. intros i Hi. apply bool_decide_ext.
    rewrite elem_of_cons. split; [|by right]. intros [->|]; done.
  - apply NoDup_cons in Hnd as [Hx Hnd].
    rewrite fmap_cons, filter_cons_False; [by apply IH|].
    rewrite bool_decide_eq_true. intros Hin. apply Hx.
    by eapply elem_of_sublist.
Qed.

Section GreedyFacts.
Local Open Scope R_scope.
Variable f : list bool → R.
Variable n : nat.

Lemma gt_bound_trans (x y : R) (b : ereal) :
  gt_bound x b = false → gt_bound y b = true → x <= y.
Proof.
  destruct b as [|z|]; simpl; try done.
  intros Hx%bool_decide_eq_false Hy%bool_decide_eq_true. lra.
Qed.

(** One scan over the candidate additions, from any running state. *)
Lemma greedy_scan_fold (best_mask : list bool) (js : list nat) (m0 : list bool) (v0 : ereal) :
  let r := foldl (λ '(best_new_mask, best_new_value) i,
                    if decide (best_mask !! i = Some false) then
                      let new_mask := <[i := true]> best_mask in
                      let new_value := f new_mask in
                      if gt_bound new_value best_new_value then (new_mask, Finite new_value)
                      else (best_new_mask, best_new_value)
                    else (best_new_mask, best_new_value))
                 (m0, v0) js in
  (r = (m0, v0) ∧
   ∀ j, j ∈ js → best_mask !! j = Some false →
        gt_bound (f (<[j := true]> best_mask)) v0 = false)
  ∨ (∃ i, i ∈ js ∧ best_mask !! i = Some false ∧
          r = (<[i := true]> best_mask, Finite (f (<[i := true]> best_mask))) ∧
          gt_bound (f (<[i := true]> best_mask)) v0 = true ∧
          ∀ j, j ∈ js → best_mask !! j = Some false →
               f (<[j := true]> best_mask) <= f (<[i := true]> best_mask)).
Proof.
  revert m0 v0. induction js as [|i js IH]; intros m0 v0; simpl.
  - left. split; [done|]. intros j Hj. by apply elem_of_nil in Hj.
  - destruct (decide (best_mask !! i = Some false)) as [Hi|Hi].
    + simpl. destruct (gt_bound (f (<[i:=true]> best_mask)) v0) eqn:Hgt.
      * right. destruct (IH (<[i:=true]> best_mask) (Finite (f (<[i:=true]> best_mask))))
          as [[Hr Hall] | (i' & Hi' & Hbit & Hr & Hgt' & Hall)].
        -- exists i. split; [left|]. split; [done|]. split; [done|]. split; [done|].
           intros j [->|Hj]%elem_of_cons Hbj; [lra|].
           specialize (Hall j Hj Hbj). simpl in Hall.
           apply bool_decide_eq_false in Hall. lra.
        -- simpl in Hgt'. apply bool_decide_eq_true in Hgt'.
           exists i'. split; [by right|]. split; [done|]. split; [done|]. split.
           ++ destruct v0 as [|z|]; simpl in *; try done.
              apply bool_decide_eq_true in Hgt. apply bool_decide_eq_true. lra.
           ++ intros j [->|Hj]%elem_of_cons Hbj; [lra | by apply Hall].
      * destruct (IH m0 v0) as [[Hr Hall] | (i' & Hi' & Hbit & Hr & Hgt' & Hall)].
        -- left. split; [done|].
           intros j [->|Hj]%elem_of_cons Hbj; [done | by apply Hall].
        -- right. exists i'. split; [by right|].
           split; [done|]. split; [done|]. split; [done|].
           intros j [->|Hj]%elem_of_cons Hbj; [|by apply Hall].
           by eapply gt_bound_trans.
    + destruct (IH m0 v0) as [[Hr Hall] | (i' & Hi' & Hbit & Hr & Hgt' & Hall)].
      * left. split; [done|].
        intros j [->|Hj]%elem_of_cons Hbj; [done | by apply Hall].
      * right. exists i'. split; [by right|].
        split; [done|]. split; [done|]. split; [done|].
        intros j [->|Hj]%elem_of_cons Hbj; [done | by apply Hall].
Qed.

(** A round of the second phase either finds no addition that raises the
    value, or moves to the mask with one more bit whose value is greatest. *)
Lemma greedy_scan_round (best_mask : list bool) (best_value : ereal) :
  (greedy_scan f n best_mask best_value = (best_mask, best_value) ∧
   ∀ j, best_mask !! j = Some false → (j < n)%nat →
        gt_bound (f (<[j := true]> best_mask)) best_value = false)
  ∨ (∃ i, best_mask !! i = Some false ∧
          greedy_scan f n best_mask best_value
          = (<[i := true]> best_mask, Finite (f (<[i := true]> best_mask))) ∧
          gt_bound (f (<[i := true]> best_mask)) best_value = true ∧
          ∀ j, best_mask !! j = Some false → (j < n)%nat →
               f (<[j := true]> best_mask) <= f (<[i := true]> best_mask)).
Proof.
  unfold greedy_scan.
  destruct (greedy_scan_fold best_mask (seq 0 n) best_mask best_value)
    as [[Hr Hall] | (i & Hi & Hbit & Hr & Hgt & Hall)].
  - left. split; [done|]. intros j Hbj Hj. apply Hall; [|done]. apply elem_of_seq. lia.
  - right. exists i. split; [done|]. split; [done|]. split; [done|].
    intros j Hbj Hj. apply Hall; [|done]. apply elem_of_seq. lia.
Qed.

Lemma gt_bound_neq (x : R) (b : ereal) : gt_bound x b = true → Finite x ≠ b.
Proof.
  destruct b as [|y|]; simpl; try done.
  intros Hgt%bool_decide_eq_true [= ->]. lra.
Qed.

(** The second phase stops, within one pass more than the number of unset bits. *)
Lemma greedy_loop_terminates (fuel : nat) (best_mask : list bool) (best_value : ereal) :
  (unset_bits best_mask < fuel)%nat →
  ∃ mask rounds,
    greedy_loop f n fuel best_mask best_value = Some (mask, rounds) ∧
    (1 ≤ rounds)%nat ∧
    (unset_bits mask + (rounds - 1))%nat = unset_bits best_mask ∧
    length mask = length best_mask ∧
    ∀ i, best_mask !! i = Some true → mask !! i = Some true.
Proof.
  revert best_mask best_value.
  induction fuel as [|fuel IH]; intros best_mask best_value Hfuel; [lia|].
  simpl.
  destruct (greedy_scan_round best_mask best_value)
    as [[-> _] | (i & Hbit & -> & Hgt & _)].
  - rewrite decide_True by done. exists best_mask, 1%nat.
    split; [done|]. split; [lia|]. split; [simpl; lia|]. done.
  - rewrite decide_False by by apply gt_bound_neq.
    pose proof (unset_bits_insert best_mask i Hbit) as Hdec.
    destruct (IH (<[i:=true]> best_mask) (Finite (f (<[i:=true]> best_mask))))
      as (mask & rounds & -> & Hr & Hbits & Hlen & Hkeep); [lia|].
    exists mask, (S rounds). simpl.
    split; [done|]. split; [lia|]. split; [lia|]. split.
    + rewrite Hlen. apply length_insert.
    + intros j Hj. by apply Hkeep, insert_keeps_set.
Qed.

(** The first phase, from any running state. *)
Lemma exhaustive_start_fold (combos : list (list nat)) (m0 : list bool) (v0 : ereal) :
  let r := foldl (λ '(best_mask, best_value) indices,
                    let mask := mask_of n indices in
                    let value := f mask in
                    if gt_bound value best_value then (mask, Finite value)
                    else (best_mask, best_value))
                 (m0, v0) combos in
  (r = (m0, v0) ∧ ∀ c, c ∈ combos → gt_bound (f (mask_of n c)) v0 = false)
  ∨ (∃ c, c ∈ combos ∧ r = (mask_of n c, Finite (f (mask_of n c))) ∧
          gt_bound (f (mask_of n c)) v0 = true ∧
          ∀ c', c' ∈ combos → f (mask_of n c') <= f (mask_of n c)).
Proof.
  revert m0 v0. induction combos as [|c combos IH]; intros m0 v0; simpl.
  - left. split; [done|]. intros c Hc. by apply elem_of_nil in Hc.
  - destruct (gt_bound (f (mask_of n c)) v0) eqn:Hgt.
    + right. destruct (IH (mask_of n c) (Finite (f (mask_of n c))))
        as [[Hr Hall] | (c' & Hc' & Hr & Hgt' & Hall)].
      * exists c. split; [left|]. split; [done|]. split; [done|].
        intros c' [->|Hc']%elem_of_cons; [lra|].
        specialize (Hall c' Hc'). simpl in Hall.
        apply bool_decide_eq_false in Hall. lra.
      * simpl in Hgt'. apply bool_decide_eq_true in Hgt'.
        exists c'. split; [by right|]. split; [done|]. split.
        -- destruct v0 as [|z|]; simpl in *; try done.
           apply bool_decide_eq_true in Hgt. apply bool_decide_eq_true. lra.
        -- intros c'' [->|Hc'']%elem_of_cons; [lra | by apply Hall].
    + destruct (IH m0 v0) as [[Hr Hall] | (c' & Hc' & Hr & Hgt' & Hall)].
      * left. split; [done|].
        intros c' [->|Hc']%elem_of_cons; [done | by apply Hall].
      * right. exists c'. split; [by right|]. split; [done|]. split; [done|].
        intros c'' [->|Hc'']%elem_of_cons; [|by apply Hall].
        by eapply gt_bound_trans.
Qed.

(** With at least [n_min] features there is a mask to start from: the first
    phase ends on a mask of length [n] with exactly [n_min] bits set, whose
    value no other such mask exceeds. *)
Lemma exhaustive_start_spec (n_min : nat) :
  (n_min ≤ n)%nat →
  ∃ c, c ∈ combinations (seq 0 n) n_min ∧
       exhaustive_start f n n_min = (mask_of n c, Finite (f (mask_of n c))) ∧
       length (mask_of n c) = n ∧
       set_bits (mask_of n c) = n_min ∧
       ∀ c', c' ∈ combinations (seq 0 n) n_min → f (mask_of n c') <= f (mask_of n c).
Proof.
  intros Hle. unfold exhaustive_start.
  destruct (exhaustive_start_fold (combinations (seq 0 n) n_min) (replicate n false) NegInf)
    as [[_ Hall] | (c & Hc & Hr & _ & Hall)].
  - exfalso. destruct (combinations (seq 0 n) n_min) as [|c cs] eqn:Hcs.
    + apply (combinations_nonempty (seq 0 n) n_min); [by rewrite length_seq | done].
    + by specialize (Hall c (list_elem_of_here _ _)).
  - exists c. repeat split; try done.
    + unfold mask_of. by rewrite length_fmap, length_seq.
    + destruct (combinations_sublist _ _ _ Hc) as [Hsub Hlen].
      unfold mask_of. rewrite mask_bits_of_sublist; [done | apply NoDup_seq | done].
Qed.
End GreedyFacts.

(** C6, as the code has it.  With [n_min <= n] and fuel for one pass more
    than [n - n_min], [greedy_maximize] returns.  Its second phase starts
    from the best mask with exactly [n_min] bits set; each pass of the loop
    either leaves (no single addition has a greater value) or sets exactly
    one unset bit, that of the addition with the greatest value; no set bit
    is ever cleared.  So at most [n - n_min] passes add a feature, and they
    are followed by exactly one pass that leaves: the loop body runs at most
    [n - n_min + 1] times, and the final mask has [n_min] bits plus one for
    each adding pass. *)
Theorem greedy_maximize_rounds (f : list bool → R) (n n_min fuel : nat) :
  (n_min ≤ n)%nat → (n - n_min < fuel)%nat →
  (∀ best_mask best_value,
     (greedy_scan f n best_mask best_value = (best_mask, best_value) ∧
      ∀ j, best_mask !! j = Some false → (j < n)%nat →
           gt_bound (f (<[j := true]> best_mask)) best_value = false)
     ∨ (∃ i, best_mask !! i = Some false ∧
             greedy_scan f n best_mask best_value
             = (<[i := true]> best_mask, Finite (f (<[i := true]> best_mask))) ∧
             gt_bound (f (<[i := true]> best_mask)) best_value = true ∧
             ∀ j, best_mask !! j = Some false → (j < n)%nat →
                  (f (<[j := true]> best_mask) <= f (<[i := true]> best_mask))%R)) ∧
  ∃ start v mask rounds,
    exhaustive_start f n n_min = (start, Finite v) ∧
    length start = n ∧ set_bits start = n_min ∧
    greedy_maximize f n fuel n_min = Some (mask, rounds) ∧
    (1 ≤ rounds ≤ n - n_min + 1)%nat ∧
    length mask = n ∧
    set_bits mask = (n_min + (rounds - 1))%nat ∧
    ∀ i, start !! i = Some true → mask !! i = Some true.
Proof.
  intros Hle Hfuel. split; [apply greedy_scan_round|].
  destruct (exhaustive_start_spec f n n_min Hle) as (c & _ & Hstart & Hlen & Hbits & _).
  pose proof (bits_length (mask_of n c)) as Hsum.
  destruct (greedy_loop_terminates f n fuel (mask_of n c) (Finite (f (mask_of n c))))
    as (mask & rounds & Hloop & Hr & Hunset & Hlen' & Hkeep); [lia|].
  pose proof (bits_length mask) as Hsum'.
  exists (mask_of n c), (f (mask_of n c)), mask, rounds.
  unfold greedy_maximize. rewrite Hstart.
  repeat split; try done; lia.
Qed.

Lemma greedy_maximize_rounds_witness :
  ∃ mask rounds,
    greedy_maximize (λ mask, INR (set_bits mask)) 3 4 1 = Some (mask, rounds) ∧
    (rounds ≤ 3)%nat.
Proof.
  destruct (greedy_maximize_rounds (λ mask, INR (set_bits mask)) 3 1 4)
    as (_ & start & v & mask & rounds & _ & _ & _ & Hrun & Hrounds & _); [lia.. |].
  exists mask, rounds. split; [done | lia].
Defined.

(** The bound of C6 as it is written fails: on one feature and [n_min = 1]
    nothing can be added, and still the loop body runs once, which is more
    than [n - n_min = 0] times. *)
Lemma greedy_maximize_rounds_counterexample :
  ¬ (∀ (f : list bool → R) (n n_min fuel : nat) mask rounds,
       (n_min ≤ n)%nat →
       greedy_maximize f n fuel n_min = Some (mask, rounds) →
       (rounds ≤ n - n_min)%nat).
Proof.
  intros H.
  assert (Hrun : greedy_maximize (λ _, 0%R) 1 5 1 = Some ([true], 1%nat)).
  { unfold greedy_maximize, exhaustive_start. simpl.
    unfold greedy_scan. simpl.
    rewrite decide_True by done. reflexivity. }
  specialize (H _ _ _ _ _ _ (le_n 1) Hrun). simpl in H. lia.
Qed.

(** ** Vector algebra for the change of basis *)

Section VectorAlgebra.
Local Open Scope R_scope.

Lemma length_zeros d : length (zeros d) = d.
Proof. apply length_replicate. Qed.











Lemma sub_self a : Np.sub a a = zeros (length a).
Proof. induction a as [|x a IH]; [done|]. unfold Np.sub, zeros in *. simpl. f_equal; [lra | done]. Qed.









Lemma dot_comm a b : Np.dot a b = Np.dot b a.
Proof.
  revert b. induction a as [|x a IH]; intros [|y b]; try done.
  unfold Np.dot in *. simpl. fold (Np.sum (zip_with Rmult a b)).
  fold (Np.sum (zip_with Rmult b a)). rewrite (IH b). lra.
Qed.

Lemma dot_cons x a y b : Np.dot (x :: a) (y :: b) = x * y + Np.dot a b.
Proof. done. Qed.





Lemma dot_zeros_l d c : Np.dot (zeros d) c = 0.
Proof.
  revert c. induction d as [|d IH]; intros [|z c]; try done.
  change (zeros (S d)) with (0 :: zeros d). rewrite dot_cons, IH. lra.
Qed.


End VectorAlgebra.

Section LinearCombinations.
Local Open Scope R_scope.
Variable d : nat.

Abbreviation dim := (Forall (λ v : Np.vec, length v = d)).


















End LinearCombinations.

(** ** Gram-Schmidt builds an orthonormal basis of the span *)

Section GramSchmidtFacts.
Local Open Scope R_scope.
Variable d : nat.

Abbreviation dimd := (Forall (λ v : Np.vec, length v = d)).








End GramSchmidtFacts.

Section GramSchmidtRoundTrip.
Local Open Scope R_scope.











(** On a family that is far from parallel the residual in binary64 is of
    the size of the rounding unit: not zero, and below [2^-48]. *)
Lemma gram_schmidt_round_trip_binary64_example :
  ∃ basis, F64.gram_schmidt [[3; 4]; [1; 2]]%float = Some basis ∧
    Forall (λ v, ∃ projected difference,
              F64.transform_to_basis v basis = Some (projected, difference) ∧
              F64.within_tolerance 0x1p-48 difference = true ∧
              F64.within_tolerance 0 difference = false)
           ([[3; 4]; [1; 2]]%float : list F64.vec).
Proof.
  eexists. split; [vm_compute; reflexivity|].
  repeat constructor; eexists _, _; (split; [vm_compute; reflexivity|]);
    split; vm_compute; reflexivity.
Qed.
End GramSchmidtRoundTrip.


(** ** The objective of the feature selector *)

Section ObjectiveFacts.
Local Open Scope R_scope.
Variable eigvalsh : ndarray → option (list R).
Variable class_mats : list Np.matrix.

Lemma forallb_fmap_false {A} (f : A → bool) (l : list A) (x : A) :
  x ∈ l → f x = false → forallb (λ b : bool, b) (f <$> l) = false.
Proof.
  induction 1 as [x l|x y l _ IH]; intros Hx; rewrite fmap_cons; cbn [forallb].
  - by rewrite Hx.
  - rewrite IH by done. apply andb_false_r.
Qed.

Lemma sentinel_value : 10 / 10 ^ 10 = / 10 ^ 9 ∧ 0 < 10 / 10 ^ 10 < 1 / 100000000.
Proof. split; [field | lra]. Qed.

(** A mask of the right length for which the check rejects the covariance
    of some class gets exactly the fixed score [10e-10], whatever the
    eigenvalue routine and the samples are. *)
Lemma objective_rejected (feature_mask : list bool) (masked_mats : list Np.matrix)
    (masked_mat : Np.matrix) :
  mapM (mask_columns feature_mask) class_mats = Some masked_mats →
  masked_mat ∈ masked_mats →
  is_positive_semi_definite eigvalsh (np_cov (set_bits feature_mask) masked_mat) = false →
  objective eigvalsh class_mats feature_mask = Some (10 / 10 ^ 10).
Proof.
  intros Hmask Hmat Hpsd. unfold objective. rewrite Hmask. cbn [mbind option_bind].
  rewrite <- !list_fmap_compose.
  rewrite (forallb_fmap_false _ _ masked_mat Hmat); [done|]. exact Hpsd.
Qed.
End ObjectiveFacts.

Section ZeroEdges.
Local Open Scope R_scope.

Lemma sum_zero (l : list R) : Forall (λ x, x = 0) l → Np.sum l = 0.
Proof. induction 1 as [|x l -> _ IH]; [done|]. cbn [Np.sum foldr]. fold (Np.sum l). lra. Qed.

Lemma mean_zero (l : list R) : Forall (λ x, x = 0) l → mean l = 0.
Proof. intros H. unfold mean. rewrite (sum_zero l H). unfold Rdiv. lra. Qed.

Lemma var_zero (l : list R) : Forall (λ x, x = 0) l → var l = 0.
Proof.
  intros H. unfold var. apply mean_zero. rewrite (mean_zero l H).
  apply Forall_fmap. eapply Forall_impl; [exact H|]. intros x ->. simpl. lra.
Qed.

Lemma dot_zeros_r (a : Np.vec) (n : nat) : Np.dot a (zeros n) = 0.
Proof. rewrite dot_comm. apply dot_zeros_l. Qed.

Lemma edge_variance_zeros (d : nat) (masked_mats : list Np.matrix) (n : nat) :
  edge_variance d masked_mats (zeros n) = 0.
Proof.
  unfold edge_variance. apply mean_zero.
  apply Forall_fmap, Forall_fmap, Forall_forall. intros mat _. simpl.
  apply var_zero. apply Forall_fmap, Forall_forall. intros row _. simpl.
  apply dot_zeros_r.
Qed.

Lemma simplex_edges_zero (masked_vectors : list Np.vec) (e : Np.vec) :
  e ∈ simplex_edges masked_vectors → e = zeros (length e).
Proof.
  unfold simplex_edges. intros (l & He & Hl)%list_elem_of_join.
  apply elem_of_lookup_imap in Hl as (i & v & -> & Hv).
  apply elem_of_replicate in He as [-> _].
  rewrite Hv. simpl. rewrite sub_self. by rewrite length_zeros.
Qed.

Lemma edge_variances_zero (d : nat) (masked_mats : list Np.matrix)
    (masked_vectors : list Np.vec) :
  Forall (λ x, x = 0) (edge_variance d masked_mats <$> simplex_edges masked_vectors).
Proof.
  apply Forall_fmap, Forall_forall. intros e He. simpl.
  rewrite (simplex_edges_zero _ _ He). apply edge_variance_zeros.
Qed.
End ZeroEdges.

Section ObjectiveExample.
Local Open Scope R_scope.

Lemma replicate_of_zero (l : list R) : Forall (λ x, x = 0) l → l = replicate (length l) 0.
Proof. induction 1 as [|x l -> _ IH]; [done|]. simpl. by rewrite <- IH. Qed.

Lemma means_a : column_means 2 class_a = [-1; 0].
Proof.
  unfold column_means, mean, column, class_a. simpl.
  f_equal; [|f_equal]; lra.
Qed.

Lemma means_b : column_means 2 class_b = [3; 0].
Proof.
  unfold column_means, mean, column, class_b. simpl.
  f_equal; [|f_equal]; lra.
Qed.

Lemma cov_a : np_cov 2 class_a = Array2d [[1; 0]; [0; 3]].
Proof.
  unfold np_cov, class_a. rewrite decide_False by done. f_equal.
  unfold cov_matrix, mean, column. simpl.
  repeat (f_equal; try lra).
Qed.

Lemma cov_b : np_cov 2 class_b = Array2d [[1; 0]; [0; 3]].
Proof.
  unfold np_cov, class_b. rewrite decide_False by done. f_equal.
  unfold cov_matrix, mean, column. simpl.
  repeat (f_equal; try lra).
Qed.


Lemma norm_4_0 (x y : R) : x * x = 16 → y = 0 → Np.norm [x; y] = 4.
Proof.
  intros Hx ->. unfold Np.norm, Np.dot. simpl.
  replace (x * x + (0 * 0 + 0)) with (4 * 4) by lra.
  apply sqrt_square. lra.
Qed.


Lemma mask_both : mapM (mask_columns [true; true]) [class_a; class_b] = Some [class_a; class_b].
Proof. reflexivity. Qed.



(** On the two example classes the mask of both features scores [-2] with
    every eigenvalue routine that lets the diagonal of 1 and 3 pass: the
    first class has a negative first mean. *)
Lemma objective_example_passing (eigvalsh : ndarray → option (list R)) :
  is_positive_semi_definite eigvalsh (Array2d [[1; 0]; [0; 3]]) = true →
  objective eigvalsh [class_a; class_b] [true; true] = Some (-2).
Proof.
  intros Hpsd.
  unfold objective. rewrite mask_both. cbn [mbind option_bind].
  change (set_bits [true; true]) with 2%nat.
  rewrite !fmap_cons, !fmap_nil, cov_a, cov_b, Hpsd, means_a, means_b.
  cbn [forallb negb andb].
  match goal with |- context [scale_factor _ ?ev] =>
    rewrite (replicate_of_zero ev (edge_variances_zero _ _ _)) end.
  rewrite length_fmap.
  change (simplex_edges [[-1; 0]; [3; 0]]) with [Np.sub [3; 0] [3; 0]].
  change (length [Np.sub [3; 0] [3; 0]]) with 1%nat.
  change (length [[-1; 0]; [3; 0]]) with 2%nat.
  assert (Hscale : scale_factor 2 (replicate 1 0) = 1).
  { unfold scale_factor, slice, prod. simpl. lra. }
  rewrite Hscale.
  match goal with |- context [simplex_volume_recursive ?mv] =>
    assert (Hvol : simplex_volume_recursive mv = Some (-1 * 4 / INR 2)) end.
  { unfold simplex_volume_recursive. simpl.
    rewrite (norm_4_0 (3 - -1) (0 - 0)) by lra. done. }
  rewrite Hvol. cbn [mbind option_bind].
  match goal with |- context [pdist ?mv] =>
    assert (Hd : pdist mv = [4]) end.
  { simpl. rewrite (norm_4_0 (-1 - 3) (0 - 0)) by lra. done. }
  rewrite Hd. cbn [amax amin foldl mbind option_bind].
  f_equal. simpl. field.
Qed.



(** Whatever the eigenvalue routine finds, as long as it lets the diagonal
    of 1 and 3 pass: every mask that the check rejects on the two example
    classes scores above the mask of both features, which passes. *)
Lemma objective_rejected_above_passing (eigvalsh : ndarray → option (list R))
    (feature_mask : list bool) (masked_mats : list Np.matrix) (masked_mat : Np.matrix) :
  is_positive_semi_definite eigvalsh (Array2d [[1; 0]; [0; 3]]) = true →
  mapM (mask_columns feature_mask) [class_a; class_b] = Some masked_mats →
  masked_mat ∈ masked_mats →
  is_positive_semi_definite eigvalsh (np_cov (set_bits feature_mask) masked_mat) = false →
  ∃ rejected passing,
    objective eigvalsh [class_a; class_b] feature_mask = Some rejected ∧
    objective eigvalsh [class_a; class_b] [true; true] = Some passing ∧
    passing < rejected.
Proof.
  intros Hpass Hmask Hmat Hpsd. exists (10 / 10 ^ 10), (-2).
  split; [by eapply objective_rejected|].
  split; [by apply objective_example_passing|].
  pose proof (proj2 sentinel_value). lra.
Qed.

End ObjectiveExample.


(** ** The normality filter *)

Section NormExpFacts.
Local Open Scope R_scope.
Variable shapiro_pvalue : list cell → R.

Lemma get_column_is_Some (c : string) (df : Table) :
  c ∈ df.*1 → is_Some (get_column c df).
Proof.
  induction df as [|[c' values] df IH]; [by intros ?%elem_of_nil|].
  simpl. intros [->|Hin]%elem_of_cons.
  - rewrite decide_True by done. by eexists.
  - destruct (decide (c' = c)); [by eexists | by apply IH].
Qed.

Lemma drop_column_names (name : string) (df : Table) :
  (drop_column name df).*1 = filter (λ c, c ≠ name) df.*1.
Proof.
  unfold drop_column. induction df as [|[c values] df IH]; [done|].
  rewrite fmap_cons, !filter_cons. cbn [fst].
  destruct (decide (c ≠ name)); [rewrite fmap_cons; cbn [fst]|]; by rewrite IH.
Qed.

Lemma filter_rows_names (mask : list bool) (df : Table) :
  (filter_rows mask df).*1 = df.*1.
Proof.
  unfold filter_rows. rewrite <- list_fmap_compose. by apply list_fmap_ext.
Qed.

Lemma phenotype_table_names (df : Table) subtype_column phenotype :
  (phenotype_table df subtype_column phenotype).*1 = filter (λ c, c ≠ "Subtype") df.*1.
Proof. unfold phenotype_table. by rewrite drop_column_names, filter_rows_names. Qed.

Lemma mapM_tagged {A B} (f : A → option B) (l : list A) (r : list (A * B)) :
  mapM (λ x, y ← f x; Some (x, y)) l = Some r →
  r.*1 = l ∧ Forall (λ p : A * B, f p.1 = Some p.2) r.
Proof.
  intros H%mapM_Some. induction H as [|x [x' y] l r Hx _ IH]; [done|].
  destruct (f x) as [y'|] eqn:Hf; simplify_eq/=.
  destruct IH as [-> Hall]. split; [done|]. by constructor.
Qed.

Lemma norm_exp_inv (df : Table) (thresh : R) out lpq :
  norm_exp shapiro_pvalue df thresh = Some (out, lpq) →
  ∃ subtype_column first_df (table : list (string * list R)),
    get_column "Subtype" df = Some subtype_column ∧
    (phenotype_table df subtype_column <$> unique subtype_column) !! 0%nat = Some first_df ∧
    table.*1 = first_df.*1 ∧
    Forall (λ r : string * list R,
              mapM (pheno_p_value shapiro_pvalue r.1)
                   (phenotype_table df subtype_column <$> unique subtype_column)
              = Some r.2) table ∧
    lpq = (λ r : string * list R,
             {| roi := r.1; p_values := r.2; p_adjusted := 1 - mean r.2 |})
          <$> filter (λ r : string * list R, Forall (λ p, p > thresh) r.2) table ∧
    out.*1 = filter (λ c, c ∈ roi <$> lpq) df.*1 ∧
    Forall (λ p : string * list cell, get_column p.1 df = Some p.2) out.
Proof.
  unfold norm_exp. intros H.
  destruct (get_column "Subtype" df) as [subtype_column|] eqn:Hsub; [|done].
  cbn [mbind option_bind] in H.
  destruct ((phenotype_table df subtype_column <$> unique subtype_column) !! 0%nat)
    as [first_df|] eqn:Hfirst; [|done].
  cbn [mbind option_bind] in H.
  destruct (mapM _ first_df.*1) as [table|] eqn:Htable; [|done].
  cbn [mbind option_bind] in H.
  destruct (mapM _ (filter _ df.*1)) as [out'|] eqn:Hout; [|done].
  cbn [mbind option_bind] in H. injection H as <- <-.
  apply mapM_tagged in Htable as [Hnames Hrows].
  apply mapM_tagged in Hout as [Hout_names Hout_rows].
  exists subtype_column, first_df, table. done.
Qed.

Lemma roi_names (thresh : R) (table : list (string * list R)) (c : string) :
  c ∈ roi <$> ((λ r : string * list R,
                  {| roi := r.1; p_values := r.2; p_adjusted := 1 - mean r.2 |})
               <$> filter (λ r : string * list R, Forall (λ p, p > thresh) r.2) table)
  ↔ ∃ ps, (c, ps) ∈ table ∧ Forall (λ p, p > thresh) ps.
Proof.
  rewrite <- list_fmap_compose. rewrite list_elem_of_fmap. split.
  - intros ([c' ps] & -> & [Hall Hin]%list_elem_of_filter). by exists ps.
  - intros (ps & Hin & Hall). exists (c, ps). split; [done|].
    by apply list_elem_of_filter.
Qed.

(** C9. The table that [norm_exp] returns first has no ['Subtype'] column:
    its columns are the columns of the input whose label is in the index of
    the p-value table, that index holds feature labels only, and every
    returned column carries the values it has in the input. *)
Theorem norm_exp_drops_subtype (df : Table) (thresh : R) out lpq :
  norm_exp shapiro_pvalue df thresh = Some (out, lpq) →
  ("Subtype" ∉ out.*1) ∧
  out.*1 = filter (λ c, c ∈ roi <$> lpq) df.*1 ∧
  (∀ c, c ∈ roi <$> lpq → c ∈ df.*1 ∧ c ≠ "Subtype") ∧
  Forall (λ p : string * list cell, get_column p.1 df = Some p.2) out.
Proof.
  intros H.
  apply norm_exp_inv in H
    as (subtype_column & first_df & table & Hsub & Hfirst & Hnames & Hrows & -> & Hout & Hvals).
  assert (Hroi : ∀ c, c ∈ roi <$> ((λ r : string * list R,
                  {| roi := r.1; p_values := r.2; p_adjusted := 1 - mean r.2 |})
               <$> filter (λ r : string * list R, Forall (λ p, p > thresh) r.2) table)
            → c ∈ df.*1 ∧ c ≠ "Subtype").
  { intros c (ps & Hin & _)%roi_names.
    assert (Hc : c ∈ first_df.*1).
    { rewrite <- Hnames. apply list_elem_of_fmap. by exists (c, ps). }
    apply list_elem_of_lookup_2 in Hfirst.
    apply list_elem_of_fmap in Hfirst as (ph & -> & _).
    rewrite phenotype_table_names in Hc.
    by apply list_elem_of_filter in Hc as [? ?]. }
  split; [|done].
  rewrite Hout. intros [Hin _]%list_elem_of_filter.
  by destruct (Hroi _ Hin).
Qed.

(** C8. A feature column of the input is kept by [norm_exp] exactly when,
    for every phenotype, its p-value is strictly above the threshold, where
    the p-value of a phenotype with fewer than 3 rows is 1.0 and otherwise
    the Shapiro p-value of the phenotype's values. *)
Theorem norm_exp_retains (df : Table) (thresh : R) out lpq :
  norm_exp shapiro_pvalue df thresh = Some (out, lpq) →
  ∃ subtype_column,
    get_column "Subtype" df = Some subtype_column ∧
    ∀ feature, feature ∈ df.*1 → feature ≠ "Subtype" →
      (feature ∈ out.*1 ↔
       ∀ phenotype, phenotype ∈ unique subtype_column →
         ∃ values,
           get_column feature (phenotype_table df subtype_column phenotype) = Some values ∧
           (if decide (length values < 3)%nat then 1 else shapiro_pvalue values) > thresh).
Proof.
  intros H.
  apply norm_exp_inv in H
    as (subtype_column & first_df & table & Hsub & Hfirst & Hnames & Hrows & -> & Hout & Hvals).
  exists subtype_column. split; [done|]. intros feature Hin Hne.
  assert (Hfeat : feature ∈ table.*1).
  { rewrite Hnames. apply list_elem_of_lookup_2 in Hfirst.
    apply list_elem_of_fmap in Hfirst as (ph & -> & _).
    rewrite phenotype_table_names. by apply list_elem_of_filter. }
  assert (Hp : ∀ pheno_df p,
             pheno_p_value shapiro_pvalue feature pheno_df = Some p ↔
             ∃ values, get_column feature pheno_df = Some values ∧
                       p = if decide (length values < 3)%nat then 1
                           else shapiro_pvalue values).
  { intros pheno_df p. unfold pheno_p_value.
    destruct (get_column feature pheno_df) as [values|]; simpl.
    - split.
      + intros Hv. exists values. split; [done|]. by case_decide; simplify_eq.
      + intros (values' & [= <-] & ->). by case_decide.
    - split; [done|]. by intros (? & ? & _). }
  rewrite Hout, list_elem_of_filter, roi_names. split.
  - intros [(ps & Hrow & Hall) _] phenotype Hph.
    pose proof (proj1 (Forall_forall _ _) Hrows _ Hrow) as Hps. simpl in Hps.
    apply mapM_Some in Hps.
    assert (Hmem : phenotype_table df subtype_column phenotype
                   ∈ phenotype_table df subtype_column <$> unique subtype_column)
      by (apply list_elem_of_fmap; eauto).
    apply list_elem_of_lookup in Hmem as [i Hi].
    destruct (Forall2_lookup_l _ _ _ _ _ Hps Hi) as (p & Hpi & Hpv).
    apply Hp in Hpv as (values & Hvalues & ->).
    exists values. split; [done|].
    apply (proj1 (Forall_forall _ _) Hall). by eapply list_elem_of_lookup_2.
  - intros Hall. split; [|done].
    apply list_elem_of_fmap in Hfeat as ([c ps] & -> & Hrow).
    exists ps. split; [done|].
    pose proof (proj1 (Forall_forall _ _) Hrows _ Hrow) as Hps. simpl in Hps.
    apply mapM_Some in Hps.
    apply Forall_forall. intros p Hpin.
    apply list_elem_of_lookup in Hpin as [i Hi].
    destruct (Forall2_lookup_r _ _ _ _ _ Hps Hi) as (pheno_df & Hdf & Hpv).
    apply list_elem_of_lookup_2, list_elem_of_fmap in Hdf as (phenotype & -> & Hph).
    destruct (Hall phenotype Hph) as (values & Hvalues & Hgt).
    simpl in Hpv. apply Hp in Hpv as (values' & Hvalues' & ->).
    by simplify_eq.
Qed.

Lemma unique_fold_elem (l acc : list cell) (x : cell) :
  x ∈ foldl (λ acc x, if decide (x ∈ acc) then acc else acc ++ [x]) acc l
  ↔ x ∈ acc ∨ x ∈ l.
Proof.
  revert acc. induction l as [|y l IH]; intros acc; simpl.
  - rewrite elem_of_nil. tauto.
  - rewrite IH, elem_of_cons. destruct (decide (y ∈ acc)) as [Hy|Hy].
    + split; [tauto|]. intros [?|[->|?]]; tauto.
    + rewrite elem_of_app, list_elem_of_singleton. tauto.
Qed.

Lemma elem_of_unique (l : list cell) (x : cell) : x ∈ unique l ↔ x ∈ l.
Proof. unfold unique. rewrite unique_fold_elem, elem_of_nil. tauto. Qed.

Lemma unique_fold_NoDup (l acc : list cell) :
  NoDup acc → NoDup (foldl (λ acc x, if decide (x ∈ acc) then acc else acc ++ [x]) acc l).
Proof.
  revert acc. induction l as [|y l IH]; intros acc Hacc; simpl; [done|].
  apply IH. destruct (decide (y ∈ acc)) as [Hy|Hy]; [done|].
  apply NoDup_app. split; [done|]. split; [|apply NoDup_singleton].
  intros x Hx ->%list_elem_of_singleton. done.
Qed.

Lemma unique_NoDup (l : list cell) : NoDup (unique l).
Proof. apply unique_fold_NoDup, NoDup_nil_2. Qed.

Lemma norm_exp_returns (df : Table) (thresh : R) subtype_column :
  get_column "Subtype" df = Some subtype_column → subtype_column ≠ [] →
  is_Some (norm_exp shapiro_pvalue df thresh).
Proof.
  intros Hsub Hne. unfold norm_exp. rewrite Hsub. cbn [mbind option_bind].
  destruct (unique subtype_column) as [|ph phs] eqn:Hu.
  { destruct subtype_column as [|x col]; [done|].
    assert (Hx : x ∈ unique (x :: col)) by (apply elem_of_unique; left).
    rewrite Hu in Hx. by apply elem_of_nil in Hx. }
  rewrite fmap_cons. cbn [lookup list_lookup mbind option_bind].
  match goal with |- is_Some (mapM ?f ?l ≫= _) =>
    assert (Htable : is_Some (mapM f l)) end.
  { apply mapM_is_Some, Forall_forall. intros feature Hfeat. unfold compose.
    match goal with |- is_Some (mapM ?g ?l ≫= _) =>
      assert (Hps : is_Some (mapM g l)) end.
    { apply mapM_is_Some, Forall_forall. intros pheno_df Hdf. unfold compose, pheno_p_value.
      assert (Hcol : is_Some (get_column feature pheno_df)).
      { apply get_column_is_Some.
        rewrite phenotype_table_names in Hfeat.
        rewrite <- fmap_cons in Hdf.
        apply list_elem_of_fmap in Hdf as (ph' & -> & _).
        by rewrite phenotype_table_names. }
      destruct Hcol as [values ->]. simpl. case_decide; by eexists. }
    destruct Hps as [ps ->]. by eexists. }
  destruct Htable as [table ->]. cbn [mbind option_bind].
  match goal with |- is_Some (mapM ?f ?l ≫= _) =>
    assert (Hout : is_Some (mapM f l)) end.
  { apply mapM_is_Some, Forall_forall. intros c [_ Hc]%list_elem_of_filter. unfold compose.
    destruct (get_column_is_Some c df Hc) as [values ->]. by eexists. }
  destruct Hout as [out ->]. by eexists.
Qed.

Lemma norm_exp_raises (df : Table) (thresh : R) :
  (get_column "Subtype" df = None ∨ get_column "Subtype" df = Some []) →
  norm_exp shapiro_pvalue df thresh = None.
Proof. unfold norm_exp. by intros [-> | ->]. Qed.
End NormExpFacts.

Section NormExpWitnesses.
Local Open Scope R_scope.

Lemma norm_exp_retains_witness :
  ∃ out lpq subtype_column,
    norm_exp (λ _, 0.5) example_table 0.05 = Some (out, lpq) ∧
    get_column "Subtype" example_table = Some subtype_column.
Proof.
  destruct (norm_exp_returns (λ _, 0.5) example_table 0.05
              [Str "ARPC"; Str "NEPC"; Str "ARPC"] eq_refl) as [[out lpq] Hrun]; [done|].
  destruct (norm_exp_retains (λ _, 0.5) example_table 0.05 out lpq Hrun)
    as (subtype_column & Hsub & _).
  by exists out, lpq, subtype_column.
Defined.

Lemma norm_exp_drops_subtype_witness :
  ∃ out lpq,
    norm_exp (λ _, 0.5) example_table 0.05 = Some (out, lpq) ∧ ("Subtype" ∉ out.*1).
Proof.
  destruct (norm_exp_returns (λ _, 0.5) example_table 0.05
              [Str "ARPC"; Str "NEPC"; Str "ARPC"] eq_refl) as [[out lpq] Hrun]; [done|].
  destruct (norm_exp_drops_subtype (λ _, 0.5) example_table 0.05 out lpq Hrun)
    as (Hno & _).
  by exists out, lpq.
Defined.
End NormExpWitnesses.

(** * Further properties of the code *)

(** ** The grid search returns the earliest minimiser *)

Section GridSearchOptimum.
Local Open Scope R_scope.
Variable logpdf : Np.vec → Np.vec → Np.matrix → R.
Variables (x mu_h : Np.vec) (cov : Np.matrix) (mu_subs : list Np.vec)
          (subtypes : list string).

Lemma optimize_tfx_loop_min grid best_tfx best_ll r :
  optimize_tfx_loop logpdf x mu_h cov mu_subs subtypes grid best_tfx best_ll = Some r →
  (r = best_tfx ∧
   ∀ t, t ∈ grid → ∃ ll, negated_likelihood logpdf x mu_h cov mu_subs subtypes t = Some ll ∧
                         lt_bound ll best_ll = false)
  ∨ (∃ pre post ll_r,
       grid = pre ++ r :: post ∧
       negated_likelihood logpdf x mu_h cov mu_subs subtypes r = Some ll_r ∧
       lt_bound ll_r best_ll = true ∧
       (∀ t, t ∈ pre → ∃ ll, negated_likelihood logpdf x mu_h cov mu_subs subtypes t = Some ll ∧
                             ll_r < ll) ∧
       (∀ t, t ∈ post → ∃ ll, negated_likelihood logpdf x mu_h cov mu_subs subtypes t = Some ll ∧
                              ll_r <= ll)).
Proof.
  revert best_tfx best_ll. induction grid as [|t grid IH]; intros best_tfx best_ll; simpl.
  - intros [= ->]. left. split; [done|]. intros t Ht. by apply elem_of_nil in Ht.
  - destruct (calculate_log_likelihoods logpdf t x mu_h cov mu_subs subtypes)
      as [lls|] eqn:Hlls; [|done].
    cbn [mbind option_bind].
    assert (Hnl : negated_likelihood logpdf x mu_h cov mu_subs subtypes t
                  = Some (- Np.sum (exp <$> lls))).
    { unfold negated_likelihood. by rewrite Hlls. }
    set (ll := - Np.sum (exp <$> lls)) in *.
    destruct (lt_bound ll best_ll) eqn:Hlt; intros Hloop; apply IH in Hloop.
    + right.
      destruct Hloop as [[-> Hall] | (pre & post & ll_r & -> & Hr & Hlt' & Hpre & Hpost)].
      * exists [], grid, ll. split; [done|]. split; [done|]. split; [done|]. split.
        -- intros t' Ht'. by apply elem_of_nil in Ht'.
        -- intros t' Ht'. destruct (Hall t' Ht') as (ll' & Hll' & Hcmp).
           exists ll'. split; [done|]. simpl in Hcmp.
           apply bool_decide_eq_false in Hcmp. lra.
      * simpl in Hlt'. apply bool_decide_eq_true in Hlt'.
        exists (t :: pre), post, ll_r. split; [done|]. split; [done|]. split.
        -- destruct best_ll as [|b|]; simpl in *; try done.
           apply bool_decide_eq_true in Hlt. apply bool_decide_eq_true. lra.
        -- split; [|done]. intros t' [->|Ht']%elem_of_cons; [|by apply Hpre].
           exists ll. split; [done | lra].
    + destruct Hloop as [[-> Hall] | (pre & post & ll_r & -> & Hr & Hlt' & Hpre & Hpost)].
      * left. split; [done|]. intros t' [->|Ht']%elem_of_cons; [|by apply Hall].
        by exists ll.
      * right. exists (t :: pre), post, ll_r.
        split; [done|]. split; [done|]. split; [done|]. split; [|done].
        intros t' [->|Ht']%elem_of_cons; [|by apply Hpre].
        exists ll. split; [done|].
        destruct best_ll as [|b|]; simpl in *; try done.
        apply bool_decide_eq_true in Hlt'. apply bool_decide_eq_false in Hlt. lra.
Qed.

(** X1. The value that [optimize_tfx] returns minimises the negated
    likelihood sum over the grid, and it is the earliest grid point that
    does: every earlier candidate has a strictly greater value, every later
    one a value at least as great. *)
Theorem optimize_tfx_earliest_minimum r :
  optimize_tfx logpdf x mu_h cov mu_subs subtypes = Some r →
  ∃ pre post ll_r,
    Np.arange 0 1.001 0.001 = pre ++ r :: post ∧
    negated_likelihood logpdf x mu_h cov mu_subs subtypes r = Some ll_r ∧
    (∀ t, t ∈ pre → ∃ ll, negated_likelihood logpdf x mu_h cov mu_subs subtypes t = Some ll ∧
                          ll_r < ll) ∧
    (∀ t, t ∈ post → ∃ ll, negated_likelihood logpdf x mu_h cov mu_subs subtypes t = Some ll ∧
                           ll_r <= ll).
Proof.
  unfold optimize_tfx. intros Hrun.
  apply optimize_tfx_loop_min in Hrun
    as [[_ Hall] | (pre & post & ll_r & Hgrid & Hr & _ & Hpre & Hpost)].
  - exfalso. rewrite arange_tfx_grid, arange_tfx_grid_head, fmap_cons in Hall.
    destruct (Hall _ (list_elem_of_here _ _)) as (ll & _ & Hcmp). done.
  - by exists pre, post, ll_r.
Qed.

End GridSearchOptimum.

Section GridSearchOptimumWitness.
Local Open Scope R_scope.

Lemma optimize_tfx_earliest_minimum_witness :
  ∃ r ll_r,
    optimize_tfx diag_normal_logpdf [1; 2] [0; 0] [[2; 0]; [0; 7]]
      [[3; 4]; [0; 1]] ["A"; "B"] = Some r ∧
    negated_likelihood diag_normal_logpdf [1; 2] [0; 0] [[2; 0]; [0; 7]]
      [[3; 4]; [0; 1]] ["A"; "B"] r = Some ll_r.
Proof.
  destruct (optimize_tfx_loop_is_Some diag_normal_logpdf [1; 2] [0; 0] [[2; 0]; [0; 7]]
              [[3; 4]; [0; 1]] ["A"; "B"] (Np.arange 0 1.001 0.001) 0 PosInf) as [r Hr];
    [simpl; lia | reflexivity | reflexivity | repeat constructor |].
  destruct (optimize_tfx_earliest_minimum diag_normal_logpdf _ _ _ _ _ r Hr)
    as (pre & post & ll_r & _ & Hll & _).
  by exists r, ll_r.
Defined.
End GridSearchOptimumWitness.

(** ** One log-likelihood per subtype, or an exception *)

Section LikelihoodShape.
Local Open Scope R_scope.
Variable logpdf : Np.vec → Np.vec → Np.matrix → R.

Lemma mapM_None {A B} (f : A → option B) (l : list A) :
  mapM f l = None ↔ ∃ x, x ∈ l ∧ f x = None.
Proof.
  induction l as [|x l IH]; simpl.
  - split; [done|]. intros (x & Hx & _). by apply elem_of_nil in Hx.
  - destruct (f x) as [y|] eqn:Hx; simpl.
    + destruct (mapM f l) as [k|]; simpl.
      * split; [done|]. intros (x' & [->|Hin]%elem_of_cons & Hnone); [congruence|].
        exfalso. assert (Some k = None) as Habs by (apply IH; eauto). done.
      * split; [|done]. intros _. destruct (proj1 IH eq_refl) as (x' & Hin & Hnone).
        exists x'. split; [by right | done].
    + split; [|done]. intros _. exists x. split; [left | done].
Qed.

(** X2. On arrays with one entry per feature, [calculate_log_likelihoods]
    returns one log-likelihood per entry of [subtypes], and it raises (the
    [IndexError] of [mu_subs[...]]) exactly when [mu_subs] has no entry at
    the first position of some subtype label. *)
Theorem calculate_log_likelihoods_shape tfx x mu_h cov (mu_subs : list Np.vec) subtypes :
  (0 < Np.shape0 cov)%nat →
  length x = Np.shape0 cov → length mu_h = Np.shape0 cov →
  Forall (λ mu : Np.vec, length mu = Np.shape0 cov) mu_subs →
  (∀ lls, calculate_log_likelihoods logpdf tfx x mu_h cov mu_subs subtypes = Some lls →
          length lls = length subtypes) ∧
  (calculate_log_likelihoods logpdf tfx x mu_h cov mu_subs subtypes = None ↔
   ∃ s i, s ∈ subtypes ∧ index s subtypes = Some i ∧ (length mu_subs ≤ i)%nat).
Proof.
  intros _ Hx Hh Hsubs. split.
  - intros lls Hl. apply mapM_Some in Hl. symmetry. by eapply Forall2_length.
  - unfold calculate_log_likelihoods. rewrite mapM_None. split.
    + intros (s & Hs & Hnone).
      destruct (index_is_Some s subtypes Hs) as (i & Hi & _).
      exists s, i. split; [done|]. split; [done|].
      destruct (mu_subs !! i) as [mu|] eqn:Hmu; [|by apply lookup_ge_None].
      rewrite (subtype_log_likelihood_returns logpdf tfx x mu_h cov mu_subs subtypes s i mu)
        in Hnone; [done..|].
      exact (Forall_lookup_1 _ _ _ _ Hsubs Hmu).
    + intros (s & i & Hs & Hi & Hlen). exists s. split; [done|].
      unfold subtype_log_likelihood. rewrite Hi. cbn [mbind option_bind].
      pose proof (proj2 (lookup_ge_None mu_subs i) Hlen) as Hnone.
      unfold Np.vec in *. by rewrite Hnone.
Qed.
End LikelihoodShape.

Section LikelihoodShapeWitness.
Local Open Scope R_scope.

Lemma calculate_log_likelihoods_shape_witness :
  calculate_log_likelihoods diag_normal_logpdf 0.5 [1; 2] [0; 0]
    [[2; 0]; [0; 7]] [[3; 4]] ["A"; "B"] = None.
Proof.
  apply (calculate_log_likelihoods_shape diag_normal_logpdf 0.5 [1; 2] [0; 0]
           [[2; 0]; [0; 7]] [[3; 4]] ["A"; "B"]);
    [simpl; lia | reflexivity | reflexivity | repeat constructor |].
  exists "B", 1%nat. split; [right; left|]. split; [reflexivity | simpl; lia].
Defined.
End LikelihoodShapeWitness.

(** ** What [update_predictions] writes, and when it raises *)

Section PredictionCells.
Local Open Scope R_scope.

Lemma prediction_loop_result predictions sample (weights : list R) subtypes rest m ms :
  is_Some (prediction_loop predictions sample weights subtypes rest m ms).2 ↔
  ∀ s, s ∈ rest → is_Some (rounded_weight weights subtypes s).
Proof.
  revert predictions m ms. induction rest as [|s rest IH]; intros predictions m ms; simpl.
  - split; [|by eexists]. intros _ s Hs. by apply elem_of_nil in Hs.
  - unfold rounded_weight at 1.
    destruct (index s subtypes ≫= _) as [w|] eqn:Hw.
    + assert (Hrw : is_Some (rounded_weight weights subtypes s)).
      { unfold rounded_weight. rewrite Hw. by eexists. }
      assert (Hcons : (∀ s', s' ∈ rest → is_Some (rounded_weight weights subtypes s')) ↔
                      (∀ s', s' ∈ s :: rest → is_Some (rounded_weight weights subtypes s'))).
      { split.
        - intros Hall s' [->|Hs']%elem_of_cons; [done | by apply Hall].
        - intros Hall s' Hs'. apply Hall. by right. }
      case_bool_decide; by rewrite IH.
    + simpl. split; [by intros [? ?]|]. intros Hall.
      destruct (Hall s (list_elem_of_here _ _)) as [w Hrw].
      unfold rounded_weight in Hrw. by rewrite Hw in Hrw.
Qed.

Lemma prediction_loop_cells predictions sample (weights : list R) subtypes rest m ms
    predictions' top s :
  prediction_loop predictions sample weights subtypes rest m ms = (predictions', Some top) →
  s ∈ rest →
  ∃ w, rounded_weight weights subtypes s = Some w ∧
       loc_get predictions' sample s = Some (Num w).
Proof.
  revert predictions m ms. induction rest as [|s' rest IH]; intros predictions m ms Hloop Hs.
  { by apply elem_of_nil in Hs. }
  simpl in Hloop.
  destruct (index s' subtypes ≫= _) as [w|] eqn:Hw; [|done].
  assert (Hrw : rounded_weight weights subtypes s' = Some (round w 4)).
  { unfold rounded_weight. by rewrite Hw. }
  destruct (decide (s ∈ rest)) as [Hin|Hnin].
  - case_bool_decide; by eapply IH.
  - apply elem_of_cons in Hs as [->|Hs]; [|done].
    exists (round w 4). split; [done|].
    case_bool_decide.
    all: match type of Hloop with prediction_loop ?p ?sa ?ws ?l ?r ?mm ?mss = _ =>
           pose proof (prediction_loop_other_col p sa ws l r mm mss sample s' Hnin) as Hcol
         end; rewrite Hloop in Hcol; cbn [fst] in Hcol; rewrite Hcol;
         apply loc_get_set_eq.
Qed.

(** X3. After a call of [update_predictions] that returns, the sample's row
    holds, under every subtype label other than ['Prediction'], the rounded
    softmax weight of that subtype, and [tfx] and [tfx_shifted] under
    ['TFX'] and ['TFX_shifted'] unless a subtype carries that label. *)
Theorem update_predictions_writes predictions sample tfx tfx_shifted lls subtypes weights :
  softmax lls = Some weights →
  (update_predictions predictions sample tfx tfx_shifted lls subtypes).2 = true →
  (∀ s, s ∈ subtypes → s ≠ "Prediction" →
     ∃ w, rounded_weight weights subtypes s = Some w ∧
          loc_get (update_predictions predictions sample tfx tfx_shifted lls subtypes).1
            sample s = Some (Num w)) ∧
  ("TFX" ∉ subtypes →
     loc_get (update_predictions predictions sample tfx tfx_shifted lls subtypes).1
       sample "TFX" = Some (Num tfx)) ∧
  ("TFX_shifted" ∉ subtypes →
     loc_get (update_predictions predictions sample tfx tfx_shifted lls subtypes).1
       sample "TFX_shifted" = Some (Num tfx_shifted)).
Proof.
  intros Hw. unfold update_predictions. rewrite Hw.
  match goal with |- context [prediction_loop ?p ?s ?w ?l ?r ?m ?ms] =>
    pose proof (prediction_loop_other_col p s w l r m ms sample) as Hcol;
    destruct (prediction_loop p s w l r m ms) as [p' [top|]] eqn:Hloop end; [|done].
  intros _. cbn [fst] in *. split; [|split].
  - intros s Hs Hne.
    destruct (prediction_loop_cells _ _ _ _ _ _ _ _ _ s Hloop Hs) as (w & Hrw & Hcell).
    exists w. split; [done|]. rewrite loc_get_set_ne by congruence. done.
  - intros Hno. rewrite loc_get_set_ne by congruence. rewrite Hcol by done.
    rewrite loc_get_set_ne by congruence. apply loc_get_set_eq.
  - intros Hno. rewrite loc_get_set_ne by congruence. rewrite Hcol by done.
    apply loc_get_set_eq.
Qed.

(** X4. [update_predictions] returns exactly when there is at least one
    log-likelihood and one at the first position of every subtype label;
    otherwise it raises ([ValueError] from the softmax of an empty array,
    [IndexError] from [weights[...]]). *)
Theorem update_predictions_returns_iff predictions sample tfx tfx_shifted
    (lls : list R) subtypes :
  (update_predictions predictions sample tfx tfx_shifted lls subtypes).2 = true ↔
  lls ≠ [] ∧
  ∀ s, s ∈ subtypes → ∃ i, index s subtypes = Some i ∧ (i < length lls)%nat.
Proof.
  unfold update_predictions.
  destruct (softmax lls) as [weights|] eqn:Hw.
  - pose proof (softmax_length _ _ Hw) as Hlen.
    assert (Hne : lls ≠ []) by (intros ->; done).
    match goal with |- context [prediction_loop ?p ?s ?w ?l ?r ?m ?ms] =>
      pose proof (prediction_loop_result p s w l r m ms) as Hres;
      destruct (prediction_loop p s w l r m ms) as [p' [top|]] end; cbn [snd] in *.
    + split; [|done]. intros _. split; [done|]. intros s Hs.
      destruct (proj1 Hres (ltac:(by eexists)) s Hs) as [w Hrw].
      unfold rounded_weight in Hrw.
      destruct (index s subtypes) as [i|]; [|done]. simpl in Hrw.
      destruct (weights !! i) as [wi|] eqn:Hwi; [|done].
      exists i. split; [done|]. rewrite <- Hlen. by eapply lookup_lt_Some.
    + split; [done|]. intros [_ Hall]. exfalso.
      assert (His : is_Some (@None string)); [|by destruct His].
      apply Hres. intros s Hs. destruct (Hall s Hs) as (i & Hi & Hlt).
      unfold rounded_weight. rewrite Hi. simpl.
      destruct (lookup_lt_is_Some_2 weights i) as [wi ->]; [lia|]. by eexists.
  - split; [done|]. intros [Hne _]. destruct lls; done.
Qed.
End PredictionCells.

Section PredictionCellsWitness.
Local Open Scope R_scope.

Lemma update_predictions_writes_witness :
  loc_get (update_predictions ∅ "S1" 0.25 0.5 [0; 1] ["ARPC"; "NEPC"]).1 "S1" "TFX"
  = Some (Num 0.25).
Proof.
  eapply (update_predictions_writes ∅ "S1" 0.25 0.5 [0; 1] ["ARPC"; "NEPC"] _ eq_refl).
  - apply update_predictions_returns; [done | simpl; lia].
  - by intros [[=]|[[=]|[]%elem_of_nil]%elem_of_cons]%elem_of_cons.
Defined.
End PredictionCellsWitness.

(** ** The greedy search ends on a local optimum *)

Section GreedyOptimum.
Local Open Scope R_scope.
Variable f : list bool → R.
Variable n : nat.

Lemma unset_bits_replicate (k : nat) : unset_bits (replicate k false) = k.
Proof.
  unfold unset_bits. induction k as [|k IH]; [done|].
  cbn [replicate]. rewrite filter_cons_True by done. cbn [length]. by rewrite IH.
Qed.

Lemma greedy_maximize_is_Some (n_min fuel : nat) :
  (n_min ≤ n)%nat → (n - n_min < fuel)%nat →
  is_Some (greedy_maximize f n fuel n_min).
Proof.
  intros Hle Hfuel. unfold greedy_maximize.
  destruct (exhaustive_start_spec f n n_min Hle) as (c & _ & -> & Hlen & Hbits & _).
  pose proof (bits_length (mask_of n c)).
  destruct (greedy_loop_terminates f n fuel (mask_of n c) (Finite (f (mask_of n c))))
    as (mask & rounds & -> & _); [lia|]. by eexists.
Qed.

Lemma greedy_loop_optimum (fuel : nat) (best_mask : list bool) mask rounds :
  greedy_loop f n fuel best_mask (Finite (f best_mask)) = Some (mask, rounds) →
  f best_mask <= f mask ∧
  ∀ j, (j < n)%nat → mask !! j = Some false → f (<[j := true]> mask) <= f mask.
Proof.
  revert best_mask rounds. induction fuel as [|fuel IH]; intros best_mask rounds; [done|].
  simpl.
  destruct (greedy_scan_round f n best_mask (Finite (f best_mask)))
    as [[-> Hall] | (i & Hbit & -> & Hgt & _)].
  - rewrite decide_True by done. intros [= <- <-]. split; [lra|].
    intros j Hj Hbit. specialize (Hall j Hbit Hj). simpl in Hall.
    apply bool_decide_eq_false in Hall. lra.
  - rewrite decide_False by by apply gt_bound_neq.
    destruct (greedy_loop f n fuel (<[i:=true]> best_mask) _) as [[m k]|] eqn:Hloop; [|done].
    simpl. intros [= <- <-]. apply IH in Hloop as [Hle Hopt].
    simpl in Hgt. apply bool_decide_eq_true in Hgt. split; [lra | done].
Qed.

(** X5. With [n_min <= n], the mask that [greedy_maximize] returns is a
    local optimum: setting any one of its unset bits does not give a greater
    value; and its value is at least that of every mask with exactly
    [n_min] bits set. *)
Theorem greedy_maximize_local_optimum (n_min fuel : nat) mask rounds :
  (n_min ≤ n)%nat →
  greedy_maximize f n fuel n_min = Some (mask, rounds) →
  (∀ j, (j < n)%nat → mask !! j = Some false → f (<[j := true]> mask) <= f mask) ∧
  (∀ c, c ∈ combinations (seq 0 n) n_min → f (mask_of n c) <= f mask).
Proof.
  intros Hle. unfold greedy_maximize.
  destruct (exhaustive_start_spec f n n_min Hle) as (c & _ & -> & _ & _ & Hbest).
  intros [Hge Hopt]%greedy_loop_optimum. split; [done|].
  intros c' Hc'. specialize (Hbest c' Hc'). lra.
Qed.

(** X6. With more bits asked for than there are features, the first phase
    has no mask to evaluate: the search starts from the empty mask with the
    value minus infinity, still ends within [n + 1] passes, and returns a
    mask with as many set bits as passes that added one. *)
Theorem greedy_maximize_too_few_features (n_min fuel : nat) :
  (n < n_min)%nat → (n < fuel)%nat →
  exhaustive_start f n n_min = (replicate n false, NegInf) ∧
  ∃ mask rounds,
    greedy_maximize f n fuel n_min = Some (mask, rounds) ∧
    (1 ≤ rounds ≤ n + 1)%nat ∧ length mask = n ∧ set_bits mask = (rounds - 1)%nat.
Proof.
  intros Hlt Hfuel.
  assert (Hnone : ∀ l k, (length l < k)%nat → combinations l k = []).
  { induction l as [|y l IH]; intros [|k] Hk; simpl in *; try lia; [done|].
    rewrite !IH by lia. done. }
  assert (Hstart : exhaustive_start f n n_min = (replicate n false, NegInf)).
  { unfold exhaustive_start. rewrite Hnone; [done|]. by rewrite length_seq. }
  split; [done|]. unfold greedy_maximize. rewrite Hstart.
  pose proof (unset_bits_replicate n) as Hunset.
  destruct (greedy_loop_terminates f n fuel (replicate n false) NegInf)
    as (mask & rounds & Hloop & Hr & Hbits & Hlen & _); [lia|].
  exists mask, rounds. rewrite length_replicate in Hlen.
  pose proof (bits_length mask). split; [done|]. lia.
Qed.
End GreedyOptimum.

Section GreedyOptimumWitness.
Local Open Scope R_scope.

Lemma greedy_maximize_local_optimum_witness :
  ∃ mask rounds,
    greedy_maximize (λ mask, INR (set_bits mask)) 3 4 1 = Some (mask, rounds) ∧
    ∀ c, c ∈ combinations (seq 0 3) 1 → INR (set_bits (mask_of 3 c)) <= INR (set_bits mask).
Proof.
  destruct (greedy_maximize_is_Some (λ mask, INR (set_bits mask)) 3 1 4)
    as [[mask rounds] Hrun]; [lia.. |].
  exists mask, rounds. split; [done|].
  apply (greedy_maximize_local_optimum (λ mask, INR (set_bits mask)) 3 1 4 mask rounds);
    [lia | done].
Defined.

Lemma greedy_maximize_too_few_features_witness :
  exhaustive_start (λ mask, INR (set_bits mask)) 1 2 = (replicate 1 false, NegInf).
Proof.
  apply (greedy_maximize_too_few_features (λ mask, INR (set_bits mask)) 1 2 2); lia.
Defined.
End GreedyOptimumWitness.

(** ** The scale factor of the objective does not see the samples *)

Section ScaleFactor.
Local Open Scope R_scope.

Lemma sum_app (l1 l2 : list R) : Np.sum (l1 ++ l2) = Np.sum l1 + Np.sum l2.
Proof.
  induction l1 as [|x l1 IH]; simpl; [lra|].
  fold (Np.sum (l1 ++ l2)). fold (Np.sum l1). rewrite IH. lra.
Qed.

Lemma prod_replicate_zero (m : nat) :
  prod (replicate m 0) = if decide (m = 0%nat) then 1 else 0.
Proof.
  destruct m as [|m]; [done|]. rewrite decide_False by done.
  unfold prod. simpl. lra.
Qed.

Lemma simplex_edges_length_gen {A} (g : nat → A → Np.vec) (l : list A) :
  (2 * length (mjoin (imap (λ i v, replicate i (g i v)) l)) = length l * (length l - 1))%nat.
Proof.
  induction l as [|x l IH] using rev_ind; [done|].
  rewrite imap_app, join_app, !length_app. simpl.
  rewrite app_nil_r, length_replicate. nia.
Qed.

Lemma simplex_edges_length (masked_vectors : list Np.vec) :
  (2 * length (simplex_edges masked_vectors)
   = length masked_vectors * (length masked_vectors - 1))%nat.
Proof. apply simplex_edges_length_gen. Qed.

Lemma count_upper_half (k j : nat) :
  (j ≤ k)%nat →
  Np.sum ((λ i : nat, if decide (k ≤ 2 * i)%nat then 1 else 0) <$> seq 0 j)
  = INR (j - min j ((k + 1) / 2)).
Proof.
  pose proof (Nat.div_mod_eq (k + 1) 2) as Hdiv.
  pose proof (Nat.mod_upper_bound (k + 1) 2 ltac:(done)) as Hmod.
  set (c := ((k + 1) / 2)%nat) in *.
  induction j as [|j IH]; intros Hj; [done|].
  rewrite seq_S, fmap_app, sum_app, IH by lia.
  cbn [fmap list_fmap Np.sum foldr Nat.add].
  case_decide.
  - replace (S j - min (S j) c)%nat with (S (j - min j c)) by lia.
    rewrite S_INR. lra.
  - replace (S j - min (S j) c)%nat with (j - min j c)%nat by lia.
    lra.
Qed.

Lemma scale_factor_zero_variances (k m : nat) :
  (2 ≤ k)%nat → (2 * m = k * (k - 1))%nat →
  scale_factor k (replicate m 0) = INR (k / 2).
Proof.
  intros Hk Hm. unfold scale_factor.
  transitivity (Np.sum ((λ i : nat, if decide (k ≤ 2 * i)%nat then 1 else 0) <$> seq 0 k)).
  - f_equal. apply Forall_fmap_ext_1, Forall_forall. intros i Hi%elem_of_seq.
    unfold slice. rewrite drop_replicate, take_replicate, prod_replicate_zero.
    repeat case_decide; try done; nia.
  - rewrite count_upper_half by done. f_equal.
    pose proof (Nat.div_mod_eq (k + 1) 2). pose proof (Nat.div_mod_eq k 2).
    pose proof (Nat.mod_upper_bound (k + 1) 2 ltac:(done)).
    pose proof (Nat.mod_upper_bound k 2 ltac:(done)). lia.
Qed.
(** X7. The scale factor of [objective] does not see the samples.  Every
    edge that the list comprehension builds is [v - masked_vectors[i]] for
    the vertex [v] at position [i] itself, the zero vector; so every edge
    variance is 0, a slice of them has product 0 unless it is empty, and
    for [k >= 2] classes the scale factor is the number of empty slices,
    [k // 2], whatever the class matrices are. *)
Theorem scale_factor_constant (d : nat) (masked_mats : list Np.matrix)
    (masked_vectors : list Np.vec) :
  (2 ≤ length masked_vectors)%nat →
  Forall (λ e, e = 0) (edge_variance d masked_mats <$> simplex_edges masked_vectors) ∧
  scale_factor (length masked_vectors)
    (edge_variance d masked_mats <$> simplex_edges masked_vectors)
  = INR (length masked_vectors / 2).
Proof.
  intros Hk. split; [apply edge_variances_zero|].
  rewrite (replicate_of_zero _ (edge_variances_zero d masked_mats masked_vectors)).
  rewrite length_fmap. apply scale_factor_zero_variances; [done|].
  apply simplex_edges_length.
Qed.
End ScaleFactor.

Section ScaleFactorWitness.
Local Open Scope R_scope.

Lemma scale_factor_constant_witness :
  scale_factor 3
    (edge_variance 2 [class_a; class_b; class_a]
       <$> simplex_edges [[-1; 0]; [3; 0]; [5; 1]])
  = INR (3 / 2).
Proof.
  apply (scale_factor_constant 2 [class_a; class_b; class_a] [[-1; 0]; [3; 0]; [5; 1]]).
  simpl. lia.
Defined.
End ScaleFactorWitness.

(** ** What [simplex_volume_recursive] computes *)

Section SimplexVolume.
Local Open Scope R_scope.

Lemma norm_nonneg (a : Np.vec) : 0 <= Np.norm a.
Proof. unfold Np.norm. apply sqrt_pos. Qed.

Lemma simplex_volume_fuel_spec (fuel : nat) (v0 : Np.vec) (rest : list Np.vec) (x0 : R) :
  v0 !! 0%nat = Some x0 → (length rest < fuel)%nat →
  ∃ c, 0 <= c ∧ simplex_volume_fuel fuel (v0 :: rest) = Some (x0 * c) ∧
       (Exists (λ v, Np.sub v v0 = zeros (length v0) ∧ length v = length v0) rest → c = 0).
Proof.
  intros Hx0. revert fuel. induction rest as [|v rest IH] using rev_ind; intros fuel Hfuel.
  - destruct fuel as [|fuel]; [simpl in Hfuel; lia|]. exists 1. split; [lra|]. split.
    + simpl. rewrite Hx0. simpl. f_equal. lra.
    + intros H. by apply Exists_nil in H.
  - destruct fuel as [|fuel]; [simpl in Hfuel; lia|].
    rewrite length_app in Hfuel. simpl in Hfuel.
    destruct (IH fuel ltac:(lia)) as (c & Hc & Hrec & Hzero).
    exists (c * Np.norm (Np.sub v v0) / INR (length (v0 :: rest ++ [v]))).
    assert (Hn : (length (v0 :: rest ++ [v]) = S (S (length rest)))%nat).
    { simpl. rewrite length_app. simpl. lia. }
    assert (Hpos : 0 < INR (length (v0 :: rest ++ [v]))).
    { rewrite Hn. apply lt_0_INR. lia. }
    pose proof (norm_nonneg (Np.sub v v0)) as Hnorm.
    split; [|split].
    + apply Rmult_le_pos; [nra|]. left. by apply Rinv_0_lt_compat.
    + cbn [simplex_volume_fuel]. rewrite decide_False by (rewrite Hn; lia).
      assert (Hslice : slice 0 (length (v0 :: rest ++ [v]) - 1) (v0 :: rest ++ [v]) = v0 :: rest).
      { unfold slice. rewrite Hn. cbn [drop]. rewrite Nat.sub_0_r.
        replace (S (S (length rest)) - 1)%nat with (length (v0 :: rest)) by (simpl; lia).
        rewrite app_comm_cons. by rewrite take_app_length. }
      rewrite Hslice, Hrec. cbn [mbind option_bind].
      rewrite app_comm_cons, last_snoc. cbn [mbind option_bind].
      rewrite <- app_comm_cons. cbn [lookup list_lookup mbind option_bind].
      f_equal. field. lra.
    + intros Hex. apply Exists_app in Hex as [Hex | Hex].
      * rewrite (Hzero Hex). unfold Rdiv. lra.
      * apply Exists_cons in Hex as [[Hv _] | Hex]; [|by apply Exists_nil in Hex].
        rewrite Hv. unfold Np.norm. rewrite dot_zeros_l, sqrt_0. unfold Rdiv. lra.
Qed.
Lemma simplex_volume_fuel_empty_vertex (fuel : nat) (rest : list Np.vec) :
  simplex_volume_fuel fuel ([] :: rest) = None.
Proof.
  revert rest. induction fuel as [|fuel IH]; intros rest; [done|].
  cbn [simplex_volume_fuel]. case_decide; [done|].
  match goal with |- context [simplex_volume_fuel fuel ?l] =>
    assert (Hslice : ∃ rest', l = [] :: rest') end.
  { destruct rest as [|v rest]; [done|]. unfold slice. simpl. by eexists. }
  destruct Hslice as [rest' ->]. by rewrite IH.
Qed.

(** X8. On a list of vertices of one length whose first vertex has an entry,
    [simplex_volume_recursive] returns the first coordinate of the first
    vertex times a factor that is not negative (the distances of the other
    vertices from the first, each divided by the number of vertices so
    far): the result is not a volume but carries the sign of that
    coordinate, and it is 0 when another vertex equals the first. *)
Theorem simplex_volume_recursive_sign (v0 : Np.vec) (rest : list Np.vec) (x0 : R) :
  v0 !! 0%nat = Some x0 →
  Forall (λ v : Np.vec, length v = length v0) rest →
  ∃ c, 0 <= c ∧
       simplex_volume_recursive (v0 :: rest) = Some (x0 * c) ∧
       (v0 ∈ rest → c = 0).
Proof.
  intros Hx0 Hlen.
  destruct (simplex_volume_fuel_spec (length (v0 :: rest)) v0 rest x0 Hx0)
    as (c & Hc & Hrun & Hzero); [simpl; lia|].
  exists c. split; [done|]. split; [done|].
  intros Hin. apply Hzero. apply Exists_exists. exists v0.
  split; [done|]. split; [apply sub_self | done].
Qed.

(** X9. [simplex_volume_recursive] raises on the empty list, where the
    recursion never reaches a list of one vertex ([RecursionError]), and on
    every list whose first vertex has no entry ([IndexError] of
    [vectors[0][0]]), as under a mask without a set bit. *)
Theorem simplex_volume_recursive_raises (rest : list Np.vec) :
  simplex_volume_recursive [] = None ∧
  simplex_volume_recursive ([] :: rest) = None.
Proof. split; [done | apply simplex_volume_fuel_empty_vertex]. Qed.
End SimplexVolume.

Section SimplexVolumeWitness.
Local Open Scope R_scope.

Lemma simplex_volume_recursive_sign_witness :
  ∃ c, 0 <= c ∧
       simplex_volume_recursive [[-1; 0]; [3; 0]; [-1; 0]] = Some (-1 * c) ∧
       (([-1; 0] : Np.vec) ∈ ([[3; 0]; [-1; 0]] : list Np.vec) → c = 0).
Proof.
  apply (simplex_volume_recursive_sign [-1; 0] [[3; 0]; [-1; 0]] (-1)).
  - reflexivity.
  - repeat constructor.
Defined.
End SimplexVolumeWitness.

(** ** Masks that [objective] turns away *)

Section ObjectiveMasks.
Local Open Scope R_scope.
Variable eigvalsh : ndarray → option (list R).
Variable class_mats : list Np.matrix.

Lemma mask_columns_is_Some (mask : list bool) (mat : Np.matrix) :
  Forall (λ row : Np.vec, length row = length mask) mat →
  ∃ masked, mask_columns mask mat = Some masked ∧ length masked = length mat.
Proof.
  intros Hrows. unfold mask_columns.
  destruct (mapM (mask_row mask) mat) as [masked|] eqn:Hm.
  - exists masked. split; [done|]. apply mapM_Some in Hm.
    symmetry. by eapply Forall2_length.
  - exfalso. apply mapM_None in Hm as (row & Hrow & Hnone).
    unfold mask_row in Hnone. rewrite decide_True in Hnone; [done|].
    symmetry. by eapply (proj1 (Forall_forall _ _) Hrows).
Qed.

(** X10. A mask with a single set bit never passes the check: [np.cov]
    returns the covariance of one column as a 0-dimensional array, on which
    [eigvalsh] raises [LinAlgError].  So with a class that has a sample,
    every such mask of the table's width scores the fixed [10e-10],
    whatever the samples are; with two classes these are all the masks of
    the exhaustive first phase of [greedy_maximize]. *)
Theorem objective_single_feature (feature_mask : list bool) :
  eigvalsh Array0d = None →
  set_bits feature_mask = 1%nat →
  Forall (Forall (λ row : Np.vec, length row = length feature_mask)) class_mats →
  Exists (λ mat, mat ≠ []) class_mats →
  objective eigvalsh class_mats feature_mask = Some (10 / 10 ^ 10).
Proof.
  intros Heig Hbits Hwidth Hex.
  destruct (mapM (mask_columns feature_mask) class_mats) as [masked_mats|] eqn:Hm.
  - apply Exists_exists in Hex as (mat & Hmat & Hne).
    apply mapM_Some in Hm.
    apply list_elem_of_lookup in Hmat as [i Hi].
    destruct (Forall2_lookup_l _ _ _ _ _ Hm Hi) as (masked & Hmasked & Hrun).
    assert (Hrows : length masked = length mat).
    { destruct (mask_columns_is_Some feature_mask mat) as (masked' & Hrun' & Hlen).
      - by eapply (proj1 (Forall_forall _ _) Hwidth), list_elem_of_lookup_2.
      - congruence. }
    apply (objective_rejected eigvalsh class_mats feature_mask masked_mats masked).
    + by apply mapM_Some.
    + by eapply list_elem_of_lookup_2.
    + rewrite Hbits. unfold is_positive_semi_definite, np_cov.
      destruct masked as [|r1 [|r2 masked]].
      * destruct mat; [done | discriminate Hrows].
      * by rewrite Heig.
      * rewrite decide_True by done. by rewrite Heig.
  - exfalso. apply mapM_None in Hm as (mat & Hmat & Hnone).
    destruct (mask_columns_is_Some feature_mask mat) as (masked & Hrun & _).
    + by eapply (proj1 (Forall_forall _ _) Hwidth).
    + congruence.
Qed.

(** X11. A mask that does not have one entry per column of some sample
    makes [objective] raise ([IndexError] of the boolean index), before any
    score is computed. *)
Theorem objective_mask_length (feature_mask : list bool) :
  Exists (Exists (λ row : Np.vec, length row ≠ length feature_mask)) class_mats →
  objective eigvalsh class_mats feature_mask = None.
Proof.
  intros Hex. apply Exists_exists in Hex as (mat & Hmat & Hrow).
  apply Exists_exists in Hrow as (row & Hrow & Hlen).
  assert (Hm : mapM (mask_columns feature_mask) class_mats = None).
  { apply mapM_None. exists mat. split; [done|].
    unfold mask_columns. apply mapM_None. exists row. split; [done|].
    unfold mask_row. by rewrite decide_False by congruence. }
  unfold objective. by rewrite Hm.
Qed.
End ObjectiveMasks.

Section ObjectiveMasksWitness.
Local Open Scope R_scope.

Lemma objective_single_feature_witness :
  objective eigvalsh_small [class_a; class_b] [false; true] = Some (10 / 10 ^ 10).
Proof.
  apply (objective_single_feature eigvalsh_small [class_a; class_b] [false; true]).
  - reflexivity.
  - reflexivity.
  - repeat constructor.
  - left. done.
Defined.

Lemma objective_mask_length_witness :
  objective eigvalsh_small [class_a; class_b] [true] = None.
Proof.
  apply (objective_mask_length eigvalsh_small [class_a; class_b] [true]).
  left. left. simpl. lia.
Defined.
End ObjectiveMasksWitness.

(** ** The ROC curve *)

Section RocCurve.
Local Open Scope R_scope.

(** The pairs of entries that numpy's broadcasting puts side by side. *)
Lemma broadcast2_pairs {A B C} (f : A → B → C) (a : list A) (b : list B) :
  broadcast2 f a b
  = (λ ab : list (A * B), (λ p : A * B, f p.1 p.2) <$> ab) <$> broadcast2 pair a b.
Proof.
  unfold broadcast2. case_decide as Hlen.
  - simpl. f_equal. clear Hlen. revert b.
    induction a as [|x a IH]; intros [|y b]; simpl; try done.
    f_equal. apply IH.
  - destruct a as [|x [|x' a]]; destruct b as [|y [|y' b]]; simpl; try done;
      by rewrite ?fmap_cons, <- ?list_fmap_compose.
Qed.

Lemma broadcast2_None {A B C A' B' C'} (f : A → B → C) (g : A' → B' → C')
    (a : list A) (b : list B) (a' : list A') (b' : list B') :
  length a = length a' → length b = length b' →
  broadcast2 f a b = None → broadcast2 g a' b' = None.
Proof.
  unfold broadcast2. intros Ha Hb. rewrite <- Ha, <- Hb. case_decide; [done|].
  destruct a as [|x [|x2 a]], a' as [|x' [|x2' a']]; try done;
    destruct b as [|y [|y2 b]], b' as [|y' [|y2' b']]; done.
Qed.

Lemma broadcast2_fmap {A A' B B' C} (f : A' → B' → C) (g : A → A') (h : B → B')
    (a : list A) (b : list B) :
  broadcast2 f (g <$> a) (h <$> b) = broadcast2 (λ x y, f (g x) (h y)) a b.
Proof.
  unfold broadcast2. rewrite !length_fmap. case_decide.
  - by rewrite zip_with_fmap_l, zip_with_fmap_r.
  - destruct a as [|x [|x' a]]; destruct b as [|y [|y' b]]; simpl; try done;
      by rewrite <- ?list_fmap_compose.
Qed.

Lemma count_true_le {A} (g1 g2 : A → bool) (l : list A) :
  (∀ x, g1 x = true → g2 x = true) →
  (count_true (g1 <$> l) ≤ count_true (g2 <$> l))%nat.
Proof.
  intros Himp. unfold count_true. induction l as [|x l IH]; [done|].
  rewrite !fmap_cons. destruct (g1 x) eqn:H1.
  - rewrite (Himp x H1). rewrite !filter_cons_True by done. simpl. lia.
  - rewrite (filter_cons_False _ false) by done.
    destruct (g2 x); [rewrite filter_cons_True by done; simpl; lia|].
    by rewrite filter_cons_False by done.
Qed.

Lemma count_true_split {A} (g h : A → bool) (l : list A) :
  (count_true ((λ x, g x && h x) <$> l) + count_true ((λ x, negb (g x) && h x) <$> l)
   = count_true (h <$> l))%nat.
Proof.
  unfold count_true. induction l as [|x l IH]; [done|].
  rewrite !fmap_cons. destruct (g x), (h x); simpl;
    rewrite ?filter_cons_True, ?filter_cons_False by done; simpl; lia.
Qed.

(** The four counts of [roc_point] as counts over the broadcast pairs. *)
Lemma roc_count_pairs (p t : Z) (threshold : R) (y_true : list Z) (predicted : list R)
    (ab : list (R * Z)) :
  broadcast2 pair predicted y_true = Some ab →
  roc_count p t ((λ x, if decide (x >= threshold) then 1%Z else 0%Z) <$> predicted) y_true
  = Some (count_true ((λ q : R * Z,
                         bool_decide ((if decide (q.1 >= threshold) then 1%Z else 0%Z) = p)
                         && bool_decide (q.2 = t)) <$> ab)).
Proof.
  intros Hab. unfold roc_count.
  rewrite <- list_fmap_compose, broadcast2_fmap, broadcast2_pairs, Hab.
  done.
Qed.

Lemma roc_point_pairs (y_true : list Z) (predicted : list R) (threshold : R) :
  match broadcast2 pair predicted y_true with
  | None => roc_point y_true predicted threshold = None
  | Some ab =>
      let fp := count_true ((λ q : R * Z, bool_decide (q.1 >= threshold)
                                          && bool_decide (q.2 = 0%Z)) <$> ab) in
      let tp := count_true ((λ q : R * Z, bool_decide (q.1 >= threshold)
                                          && bool_decide (q.2 = 1%Z)) <$> ab) in
      let neg := count_true ((λ q : R * Z, bool_decide (q.2 = 0%Z)) <$> ab) in
      let pos := count_true ((λ q : R * Z, bool_decide (q.2 = 1%Z)) <$> ab) in
      roc_point y_true predicted threshold = Some (count_div fp neg, count_div tp pos)
  end.
Proof.
  destruct (broadcast2 pair predicted y_true) as [ab|] eqn:Hab.
  - cbn zeta. unfold roc_point.
    rewrite !(roc_count_pairs _ _ threshold y_true predicted ab Hab).
    cbn [mbind option_bind].
    assert (Hone : ∀ t : Z,
      (λ q : R * Z, bool_decide ((if decide (q.1 >= threshold) then 1%Z else 0%Z) = 1%Z)
                    && bool_decide (q.2 = t)) <$> ab
      = (λ q : R * Z, bool_decide (q.1 >= threshold) && bool_decide (q.2 = t)) <$> ab).
    { intros t. apply list_fmap_ext. intros _ q _. simpl.
      destruct (decide (q.1 >= threshold)) as [Hge|Hlt].
      - by rewrite (bool_decide_eq_true_2 (q.1 >= threshold)) by done.
      - by rewrite (bool_decide_eq_false_2 (q.1 >= threshold)) by done. }
    assert (Hzero : ∀ t : Z,
      (λ q : R * Z, bool_decide ((if decide (q.1 >= threshold) then 1%Z else 0%Z) = 0%Z)
                    && bool_decide (q.2 = t)) <$> ab
      = (λ q : R * Z, negb (bool_decide (q.1 >= threshold)) && bool_decide (q.2 = t)) <$> ab).
    { intros t. apply list_fmap_ext. intros _ q _. simpl.
      destruct (decide (q.1 >= threshold)) as [Hge|Hlt].
      - by rewrite (bool_decide_eq_true_2 (q.1 >= threshold)) by done.
      - by rewrite (bool_decide_eq_false_2 (q.1 >= threshold)) by done. }
    rewrite !Hone, !Hzero.
    rewrite (count_true_split (λ q : R * Z, bool_decide (q.1 >= threshold))
               (λ q : R * Z, bool_decide (q.2 = 0%Z)) ab).
    rewrite (count_true_split (λ q : R * Z, bool_decide (q.1 >= threshold))
               (λ q : R * Z, bool_decide (q.2 = 1%Z)) ab).
    done.
  - assert (Hnone : ∀ (p t : Z) (y_pred : list Z),
              length y_pred = length predicted → roc_count p t y_pred y_true = None).
    { intros p t y_pred Hlen. unfold roc_count.
      rewrite (broadcast2_None pair andb predicted y_true _ _);
        [done | rewrite length_fmap; congruence | by rewrite length_fmap | done]. }
    unfold roc_point. rewrite (Hnone 1%Z 0%Z) by apply length_fmap. done.
Qed.
Lemma count_div_range (a b : nat) (r : R) :
  (a ≤ b)%nat → count_div a b = Quot r → 0 <= r <= 1.
Proof.
  intros Hle. unfold count_div. case_decide as Hb; [done|]. intros [= <-].
  assert (0 < INR b) by (apply lt_0_INR; lia).
  assert (0 <= INR a) by apply pos_INR.
  assert (INR a <= INR b) by by apply le_INR.
  split.
  - apply Rmult_le_pos; [done|]. left. by apply Rinv_0_lt_compat.
  - apply Rmult_le_reg_r with (INR b); [done|]. unfold Rdiv.
    rewrite Rmult_assoc, Rinv_l by lra. lra.
Qed.

Lemma count_div_le (a a' b : nat) (r r' : R) :
  (a' ≤ a)%nat → count_div a b = Quot r → count_div a' b = Quot r' → r' <= r.
Proof.
  intros Hle. unfold count_div. case_decide as Hb; [done|]. intros [= <-] [= <-].
  assert (0 < INR b) by (apply lt_0_INR; lia).
  assert (INR a' <= INR a) by by apply le_INR.
  unfold Rdiv. apply Rmult_le_compat_r; [|done].
  left. by apply Rinv_0_lt_compat.
Qed.

Lemma count_div_same (b : nat) (r : R) : count_div b b = Quot r → r = 1.
Proof.
  unfold count_div. case_decide as Hb; [done|]. intros [= <-].
  assert (0 < INR b) by (apply lt_0_INR; lia). field. lra.
Qed.

Lemma count_true_and_le {A} (g h : A → bool) (l : list A) :
  (count_true ((λ x, g x && h x) <$> l) ≤ count_true (h <$> l))%nat.
Proof. apply count_true_le. intros x. by destruct (g x). Qed.

Lemma roc_point_range (y_true : list Z) (predicted : list R) (threshold : R)
    (point : quotient * quotient) (r : R) :
  roc_point y_true predicted threshold = Some point →
  point.1 = Quot r ∨ point.2 = Quot r → 0 <= r <= 1.
Proof.
  pose proof (roc_point_pairs y_true predicted threshold) as Hpt.
  destruct (broadcast2 pair predicted y_true) as [ab|]; [|by rewrite Hpt].
  cbn zeta in Hpt. rewrite Hpt. intros [= <-]. cbn [fst snd].
  intros [Hq|Hq]; (eapply count_div_range; [|exact Hq]);
    apply (count_true_and_le (λ q : R * Z, bool_decide (q.1 >= threshold))).
Qed.

Lemma roc_point_monotone (y_true : list Z) (predicted : list R) (t1 t2 : R)
    (p1 p2 : quotient * quotient) :
  t1 <= t2 →
  roc_point y_true predicted t1 = Some p1 →
  roc_point y_true predicted t2 = Some p2 →
  (∀ a b, p1.1 = Quot a → p2.1 = Quot b → b <= a) ∧
  (∀ a b, p1.2 = Quot a → p2.2 = Quot b → b <= a).
Proof.
  intros Ht.
  pose proof (roc_point_pairs y_true predicted t1) as H1.
  pose proof (roc_point_pairs y_true predicted t2) as H2.
  destruct (broadcast2 pair predicted y_true) as [ab|]; [|by rewrite H1].
  cbn zeta in H1, H2. rewrite H1, H2. intros [= <-] [= <-]. cbn [fst snd].
  split; intros a b Ha Hb; (eapply count_div_le; [|exact Ha|exact Hb]);
    apply count_true_le; intros q [Hge Hy]%andb_prop;
    apply andb_true_intro; (split; [|done]);
    apply bool_decide_eq_true in Hge; apply bool_decide_eq_true; lra.
Qed.

Lemma broadcast2_pairs_elem {A B} (a : list A) (b : list B) (ab : list (A * B)) :
  broadcast2 pair a b = Some ab → Forall (λ q, q.1 ∈ a) ab.
Proof.
  unfold broadcast2. case_decide as Hlen.
  - intros [= <-]. clear Hlen. revert b.
    induction a as [|x a IH]; intros [|y b]; simpl; try by constructor.
    constructor; [simpl; left|].
    eapply Forall_impl; [apply IH|]. intros q Hq. simpl in *. by right.
  - destruct a as [|x [|x' a]]; destruct b as [|y [|y' b]]; intros Hab; simplify_eq/=;
      try by constructor.
    + apply Forall_forall. intros q [-> | [-> | (y0 & -> & _)%list_elem_of_fmap
        ]%elem_of_cons]%elem_of_cons; simpl; left.
    + apply Forall_forall. intros q [-> | [-> | (x0 & -> & Hx0)%list_elem_of_fmap
        ]%elem_of_cons]%elem_of_cons; simpl.
      * left.
      * right. left.
      * by do 2 right.
Qed.

Lemma nroc_curve_inv (y_true : list Z) (predicted : list R) (num_thresh : nat)
    fprs tprs thresholds :
  nroc_curve y_true predicted num_thresh = Some (fprs, tprs, thresholds) →
  (0 < num_thresh)%nat ∧
  thresholds = Np.arange 0 (1 + 1 / INR num_thresh) (1 / INR num_thresh) ∧
  ∃ points, Forall2 (λ t pt, roc_point y_true predicted t = Some pt) thresholds points ∧
            fprs = points.*1 ∧ tprs = points.*2.
Proof.
  unfold nroc_curve. case_decide as Hn; [done|].
  destruct (mapM _ _) as [points|] eqn:Hpts; [|done].
  cbn [mbind option_bind]. intros [= <- <- <-].
  split; [lia|]. split; [done|]. exists points. split; [|done].
  by apply mapM_Some.
Qed.

(** X12. Every rate that [nroc_curve] returns is [nan] or a number from 0
    to 1, and there is one false positive rate and one true positive rate
    per threshold. *)
Theorem nroc_curve_rates (y_true : list Z) (predicted : list R) (num_thresh : nat)
    fprs tprs thresholds :
  nroc_curve y_true predicted num_thresh = Some (fprs, tprs, thresholds) →
  length fprs = length thresholds ∧ length tprs = length thresholds ∧
  Forall (λ q, ∀ r, q = Quot r → 0 <= r <= 1) (fprs ++ tprs).
Proof.
  intros (_ & _ & points & Hpts & -> & ->)%nroc_curve_inv.
  rewrite !length_fmap. pose proof (Forall2_length _ _ _ Hpts) as Hlen.
  split; [done|]. split; [done|].
  apply Forall_app. split; apply Forall_fmap, Forall_forall; intros pt Hpt r Hr;
    apply list_elem_of_lookup in Hpt as [i Hi];
    destruct (Forall2_lookup_r _ _ _ _ _ Hpts Hi) as (t & _ & Hrun);
    eapply roc_point_range; eauto.
Qed.

(** X13. The curve that [nroc_curve] returns falls from left to right: at a
    later threshold neither rate is greater than at an earlier one, where
    both are numbers. *)
Theorem nroc_curve_monotone (y_true : list Z) (predicted : list R) (num_thresh : nat)
    fprs tprs thresholds (i j : nat) :
  nroc_curve y_true predicted num_thresh = Some (fprs, tprs, thresholds) →
  (i ≤ j)%nat →
  (∀ a b, fprs !! i = Some (Quot a) → fprs !! j = Some (Quot b) → b <= a) ∧
  (∀ a b, tprs !! i = Some (Quot a) → tprs !! j = Some (Quot b) → b <= a).
Proof.
  intros (Hn & Hths & points & Hpts & -> & ->)%nroc_curve_inv Hij.
  assert (Hstep : 0 < 1 / INR num_thresh).
  { apply Rdiv_lt_0_compat; [lra | by apply lt_0_INR]. }
  assert (Hmono : ∀ pi pj, points !! i = Some pi → points !! j = Some pj →
            (∀ a b, pi.1 = Quot a → pj.1 = Quot b → b <= a) ∧
            (∀ a b, pi.2 = Quot a → pj.2 = Quot b → b <= a)).
  { intros pi pj Hi Hj.
    destruct (Forall2_lookup_r _ _ _ _ _ Hpts Hi) as (ti & Hti & Hruni).
    destruct (Forall2_lookup_r _ _ _ _ _ Hpts Hj) as (tj & Htj & Hrunj).
    eapply roc_point_monotone; [|exact Hruni|exact Hrunj].
    rewrite Hths in Hti, Htj. unfold Np.arange in Hti, Htj.
    rewrite list_lookup_fmap in Hti, Htj.
    destruct (seq _ _ !! i) as [ki|] eqn:Hki; [|done].
    destruct (seq _ _ !! j) as [kj|] eqn:Hkj; [|done].
    apply lookup_seq in Hki as [-> _]. apply lookup_seq in Hkj as [-> _].
    simpl in Hti, Htj. simplify_eq.
    assert (INR i <= INR j) by by apply le_INR. nra. }
  split; intros a b Ha Hb; rewrite list_lookup_fmap in Ha, Hb;
    destruct (points !! i) as [pi|] eqn:Hi; [|done| |done];
    destruct (points !! j) as [pj|] eqn:Hj; [|done| |done];
    simpl in Ha, Hb; simplify_eq;
    destruct (Hmono pi pj eq_refl eq_refl) as [Hf Ht]; eauto.
Qed.

(** X14. With predictions that are not negative, the first threshold is 0
    and leaves every sample on the positive side: the first false positive
    rate and the first true positive rate are 1, where they are numbers. *)
Theorem nroc_curve_first_point (y_true : list Z) (predicted : list R) (num_thresh : nat)
    fprs tprs thresholds :
  nroc_curve y_true predicted num_thresh = Some (fprs, tprs, thresholds) →
  Forall (λ x, x >= 0) predicted →
  thresholds !! 0%nat = Some 0 ∧
  (∀ a, fprs !! 0%nat = Some (Quot a) → a = 1) ∧
  (∀ a, tprs !! 0%nat = Some (Quot a) → a = 1).
Proof.
  intros (Hn & Hths & points & Hpts & -> & ->)%nroc_curve_inv Hpos.
  assert (Hfirst : thresholds !! 0%nat = Some 0 ∨ thresholds = []).
  { rewrite Hths. unfold Np.arange.
    destruct (Z.to_nat _) as [|k]; [by right|]. left. simpl. f_equal. lra. }
  assert (Hpt : ∀ p0, points !! 0%nat = Some p0 →
            thresholds !! 0%nat = Some 0 ∧
            (∀ a, p0.1 = Quot a → a = 1) ∧ (∀ a, p0.2 = Quot a → a = 1)).
  { intros p0 Hp0.
    destruct (Forall2_lookup_r _ _ _ _ _ Hpts Hp0) as (t0 & Ht0 & Hrun).
    destruct Hfirst as [H0 | ->]; [|done]. split; [done|]. simplify_eq.
    pose proof (roc_point_pairs y_true predicted 0) as Hform.
    destruct (broadcast2 pair predicted y_true) as [ab|] eqn:Hab; [|congruence].
    cbn zeta in Hform. rewrite Hform in Hrun. injection Hrun as <-. cbn [fst snd].
    assert (Hall : ∀ t : Z,
      (λ q : R * Z, bool_decide (q.1 >= 0) && bool_decide (q.2 = t)) <$> ab
      = (λ q : R * Z, bool_decide (q.2 = t)) <$> ab).
    { intros t. apply Forall_fmap_ext_1.
      eapply Forall_impl; [exact (broadcast2_pairs_elem _ _ _ Hab)|].
      intros q Hq. simpl in *.
      rewrite (bool_decide_eq_true_2 (q.1 >= 0)); [done|].
      by eapply (proj1 (Forall_forall _ _) Hpos). }
    rewrite !Hall. split; intros a Ha; by eapply count_div_same. }
  destruct (points !! 0%nat) as [p0|] eqn:Hp0.
  - destruct (Hpt p0 eq_refl) as (Ht & Hf & Hr).
    rewrite !list_lookup_fmap, Hp0. simpl.
    split; [done|]. split; intros a [= Ha]; eauto.
  - (* no point: the list of thresholds is empty, which the grid never is *)
    exfalso. apply lookup_ge_None in Hp0.
    apply Forall2_length in Hpts. rewrite Hths in Hpts. unfold Np.arange in Hpts.
    rewrite length_fmap, length_seq in Hpts.
    assert (Hceil : (2 <= Np.ceil ((1 + 1 / INR num_thresh - 0) / (1 / INR num_thresh)))%Z).
    { assert (Hq : (1 + 1 / INR num_thresh - 0) / (1 / INR num_thresh)
                   = IZR (Z.of_nat num_thresh + 1)).
      { rewrite plus_IZR, <- INR_IZR_INZ. assert (0 < INR num_thresh) by by apply lt_0_INR.
        field. lra. }
      rewrite Hq, ceil_IZR. lia. }
    lia.
Qed.
End RocCurve.

Section RocCurveWitness.
Local Open Scope R_scope.

Lemma roc_example :
  is_Some (nroc_curve [0; 1; 1]%Z [0.2; 0.7; 0.9] 2).
Proof.
  unfold nroc_curve. rewrite decide_False by done.
  replace (Np.arange 0 (1 + 1 / INR 2) (1 / INR 2)) with [0; 0.5; 1].
  - apply fmap_is_Some. apply mapM_is_Some. repeat constructor;
      unfold compose, roc_point, roc_count, broadcast2; simpl; by eexists.
  - unfold Np.arange.
    replace ((1 + 1 / INR 2 - 0) / (1 / INR 2)) with (IZR 3) by (simpl; lra).
    rewrite ceil_IZR. simpl. repeat f_equal; lra.
Qed.

Lemma nroc_curve_rates_witness :
  ∃ fprs tprs thresholds,
    nroc_curve [0; 1; 1]%Z [0.2; 0.7; 0.9] 2 = Some (fprs, tprs, thresholds) ∧
    length fprs = length thresholds.
Proof.
  destruct roc_example as [[[fprs tprs] thresholds] Hrun].
  exists fprs, tprs, thresholds. split; [done|].
  by apply (nroc_curve_rates [0; 1; 1]%Z [0.2; 0.7; 0.9] 2 fprs tprs thresholds).
Defined.

Lemma nroc_curve_monotone_witness :
  ∃ fprs tprs thresholds,
    nroc_curve [0; 1; 1]%Z [0.2; 0.7; 0.9] 2 = Some (fprs, tprs, thresholds) ∧
    ∀ a b, fprs !! 0%nat = Some (Quot a) → fprs !! 1%nat = Some (Quot b) → b <= a.
Proof.
  destruct roc_example as [[[fprs tprs] thresholds] Hrun].
  exists fprs, tprs, thresholds. split; [done|].
  apply (nroc_curve_monotone [0; 1; 1]%Z [0.2; 0.7; 0.9] 2 fprs tprs thresholds 0 1);
    [done | lia].
Defined.

Lemma nroc_curve_first_point_witness :
  ∃ fprs tprs thresholds,
    nroc_curve [0; 1; 1]%Z [0.2; 0.7; 0.9] 2 = Some (fprs, tprs, thresholds) ∧
    thresholds !! 0%nat = Some 0.
Proof.
  destruct roc_example as [[[fprs tprs] thresholds] Hrun].
  exists fprs, tprs, thresholds. split; [done|].
  apply (nroc_curve_first_point [0; 1; 1]%Z [0.2; 0.7; 0.9] 2 fprs tprs thresholds);
    [done|]. repeat constructor; lra.
Defined.
End RocCurveWitness.

(** ** Min/max standardization *)

Section MinMax.
Local Open Scope R_scope.

Lemma foldl_Rmin_spec (l : list R) (x : R) :
  (foldl Rmin x l = x ∨ foldl Rmin x l ∈ l) ∧
  foldl Rmin x l <= x ∧ Forall (λ y, foldl Rmin x l <= y) l.
Proof.
  revert x. induction l as [|y l IH]; intros x; simpl.
  - split; [by left|]. split; [lra | constructor].
  - destruct (IH (Rmin x y)) as (Hin & Hle & Hall).
    pose proof (Rmin_l x y). pose proof (Rmin_r x y).
    split; [|split].
    + destruct Hin as [Heq | Hin]; [|right; by right].
      rewrite Heq. unfold Rmin. destruct (Rle_dec x y); [by left | right; left].
    + lra.
    + constructor; [lra | done].
Qed.

Lemma foldl_Rmax_spec (l : list R) (x : R) :
  (foldl Rmax x l = x ∨ foldl Rmax x l ∈ l) ∧
  x <= foldl Rmax x l ∧ Forall (λ y, y <= foldl Rmax x l) l.
Proof.
  revert x. induction l as [|y l IH]; intros x; simpl.
  - split; [by left|]. split; [lra | constructor].
  - destruct (IH (Rmax x y)) as (Hin & Hle & Hall).
    pose proof (Rmax_l x y). pose proof (Rmax_r x y).
    split; [|split].
    + destruct Hin as [Heq | Hin]; [|right; by right].
      rewrite Heq. unfold Rmax. destruct (Rle_dec x y); [right; left | by left].
    + lra.
    + constructor; [lra | done].
Qed.

Lemma amin_spec (l : list R) (lo : R) :
  amin l = Some lo → lo ∈ l ∧ Forall (λ y, lo <= y) l.
Proof.
  destruct l as [|x l]; [done|]. simpl. intros [= <-].
  destruct (foldl_Rmin_spec l x) as (Hin & Hle & Hall).
  split; [|by constructor].
  destruct Hin as [-> | Hin]; [left | by right].
Qed.

Lemma amax_spec (l : list R) (hi : R) :
  amax l = Some hi → hi ∈ l ∧ Forall (λ y, y <= hi) l.
Proof.
  destruct l as [|x l]; [done|]. simpl. intros [= <-].
  destruct (foldl_Rmax_spec l x) as (Hin & Hle & Hall).
  split; [|by constructor].
  destruct Hin as [-> | Hin]; [left | by right].
Qed.

Lemma minmax_dicts_other (columns : Table) (m0 r0 m r : gmap string R) (c : string) :
  minmax_dicts columns m0 r0 = Some (m, r) →
  c ∉ columns.*1 ∨ c = "Subtype" → m !! c = m0 !! c ∧ r !! c = r0 !! c.
Proof.
  revert m0 r0. induction columns as [|[c' values] columns IH]; intros m0 r0; simpl.
  - by intros [= <- <-].
  - intros Hrun Hc. case_decide as Hsub.
    + apply (IH _ _ Hrun). destruct Hc as [Hc|Hc]; [|by right].
      left. intros Hin. apply Hc. by right.
    + destruct (numbers values) as [xs|]; [|done]. cbn [mbind option_bind] in Hrun.
      destruct (amin xs) as [lo|]; [|done]. cbn [mbind option_bind] in Hrun.
      destruct (amax xs) as [hi|]; [|done]. cbn [mbind option_bind] in Hrun.
      assert (Hne : c' ≠ c).
      { destruct Hc as [Hc | ->]; [|done]. intros ->. apply Hc. left. }
      destruct (IH _ _ Hrun) as [Hm Hr].
      { destruct Hc as [Hc|Hc]; [|by right]. left. intros Hin. apply Hc. by right. }
      rewrite Hm, Hr. by rewrite !lookup_insert_ne.
Qed.

Lemma minmax_dicts_spec (columns : Table) (m0 r0 m r : gmap string R)
    (c : string) (values : list cell) :
  NoDup columns.*1 →
  minmax_dicts columns m0 r0 = Some (m, r) →
  (c, values) ∈ columns → c ≠ "Subtype" →
  ∃ xs lo hi, numbers values = Some xs ∧ amin xs = Some lo ∧ amax xs = Some hi ∧
              m !! c = Some lo ∧ r !! c = Some (hi - lo).
Proof.
  revert m0 r0. induction columns as [|[c' values'] columns IH]; intros m0 r0 Hnd;
    [intros _ Hin; by apply elem_of_nil in Hin|].
  simpl in *. apply NoDup_cons in Hnd as [Hfresh Hnd].
  intros Hrun Hin Hc. apply elem_of_cons in Hin as [[= <- <-] | Hin].
  - rewrite decide_False in Hrun by done.
    destruct (numbers values) as [xs|] eqn:Hxs; [|done]. cbn [mbind option_bind] in Hrun.
    destruct (amin xs) as [lo|] eqn:Hlo; [|done]. cbn [mbind option_bind] in Hrun.
    destruct (amax xs) as [hi|] eqn:Hhi; [|done]. cbn [mbind option_bind] in Hrun.
    exists xs, lo, hi. split; [done|]. split; [done|]. split; [done|].
    destruct (minmax_dicts_other _ _ _ _ _ c Hrun) as [-> ->]; [by left|].
    by rewrite !lookup_insert_eq.
  - case_decide; [by eapply IH|].
    destruct (numbers values') as [xs|]; [|done]. cbn [mbind option_bind] in Hrun.
    destruct (amin xs) as [lo|]; [|done]. cbn [mbind option_bind] in Hrun.
    destruct (amax xs) as [hi|]; [|done]. cbn [mbind option_bind] in Hrun.
    by eapply IH.
Qed.

Lemma minmax_scale_spec (columns columns' : Table) (m r : gmap string R) :
  minmax_scale columns m r = Some columns' →
  Forall2 (λ col col',
             col'.1 = col.1 ∧
             ((col.1 = "Subtype" ∨ m !! col.1 = None) → col'.2 = col.2) ∧
             (col.1 ≠ "Subtype" → ∀ lo, m !! col.1 = Some lo →
                ∃ xs range, numbers col.2 = Some xs ∧ r !! col.1 = Some range ∧
                            col'.2 = Num <$> ((λ x, (x - lo) / range) <$> xs)))
          columns columns'.
Proof.
  revert columns'. induction columns as [|[c values] columns IH]; intros columns'; simpl.
  - intros [= <-]. constructor.
  - destruct (minmax_scale columns m r) as [rest|] eqn:Hrest.
    2:{ destruct (if decide (c ≠ "Subtype") then _ else _); done. }
    case_decide as Hsub.
    + destruct (m !! c) as [lo|] eqn:Hlo.
      * destruct (numbers values) as [xs|] eqn:Hxs; [|done]. cbn [mbind option_bind].
        destruct (r !! c) as [range|] eqn:Hrange; [|done]. cbn [mbind option_bind].
        intros [= <-]. constructor; [|by apply IH]. simpl.
        split; [done|]. split; [intros [Heq|Heq]; [by destruct Hsub | congruence]|].
        intros _ lo' Hlo'. assert (lo' = lo) as -> by congruence.
        by exists xs, range.
      * cbn [mbind option_bind]. intros [= <-]. constructor; [|by apply IH]. simpl.
        split; [done|]. split; [done|]. intros _ lo' Hlo'. congruence.
    + cbn [mbind option_bind]. intros [= <-]. constructor; [|by apply IH]. simpl.
      split; [done|]. split; [done|]. intros Hne. by destruct Hsub.
Qed.

Lemma scaled_range (xs : list R) (lo hi : R) :
  amin xs = Some lo → amax xs = Some hi → lo ≠ hi →
  Forall (λ y, 0 <= y <= 1) ((λ x, (x - lo) / (hi - lo)) <$> xs) ∧
  0 ∈ (λ x, (x - lo) / (hi - lo)) <$> xs ∧
  1 ∈ (λ x, (x - lo) / (hi - lo)) <$> xs.
Proof.
  intros [Hlo_in Hlo]%amin_spec [Hhi_in Hhi]%amax_spec Hne.
  assert (Hlt : 0 < hi - lo).
  { pose proof (proj1 (Forall_forall _ _) Hhi lo Hlo_in). simpl in *. lra. }
  split; [|split].
  - apply Forall_fmap, Forall_forall. intros x Hx. simpl.
    pose proof (proj1 (Forall_forall _ _) Hlo x Hx).
    pose proof (proj1 (Forall_forall _ _) Hhi x Hx). simpl in *.
    split.
    + apply Rmult_le_pos; [lra|]. left. by apply Rinv_0_lt_compat.
    + apply Rmult_le_reg_r with (hi - lo); [done|]. unfold Rdiv.
      rewrite Rmult_assoc, Rinv_l by lra. lra.
  - apply list_elem_of_fmap. exists lo. split; [|done]. unfold Rdiv. lra.
  - apply list_elem_of_fmap. exists hi. split; [|done]. field. lra.
Qed.

(** X15. Without dictionaries, [minmax_standardize] keeps the columns and
    their order and rescales every column but ['Subtype'] with its own
    minimum and range, which it also returns in the two dictionaries; a
    column that is not constant then lies between 0 and 1 and takes both
    values.  (A constant column has the range 0 and is divided by zero.) *)
Theorem minmax_standardize_unit_interval (df df' : Table)
    (min_dict range_dict : option (gmap string R)) (mins ranges : gmap string R)
    (i : nat) (c : string) (values : list cell) :
  NoDup df.*1 →
  min_dict = None ∨ range_dict = None →
  minmax_standardize df min_dict range_dict = Some (df', mins, ranges) →
  df !! i = Some (c, values) → c ≠ "Subtype" →
  df'.*1 = df.*1 ∧
  ∃ xs lo hi,
    numbers values = Some xs ∧ amin xs = Some lo ∧ amax xs = Some hi ∧
    mins !! c = Some lo ∧ ranges !! c = Some (hi - lo) ∧
    (lo ≠ hi →
       df' !! i = Some (c, Num <$> ((λ x, (x - lo) / (hi - lo)) <$> xs)) ∧
       Forall (λ y, 0 <= y <= 1) ((λ x, (x - lo) / (hi - lo)) <$> xs) ∧
       0 ∈ (λ x, (x - lo) / (hi - lo)) <$> xs ∧
       1 ∈ (λ x, (x - lo) / (hi - lo)) <$> xs).
Proof.
  intros Hnd Hnone Hrun Hi Hc. unfold minmax_standardize in Hrun.
  assert (Hdicts : match min_dict, range_dict with
                   | Some m, Some r => Some (m, r)
                   | _, _ => minmax_dicts df ∅ ∅
                   end = minmax_dicts df ∅ ∅).
  { destruct Hnone as [-> | ->]; [done | by destruct min_dict]. }
  rewrite Hdicts in Hrun. clear Hdicts.
  destruct (minmax_dicts df ∅ ∅) as [[m r]|] eqn:Hd; [|done].
  cbn [mbind option_bind fst snd] in Hrun.
  destruct (minmax_scale df m r) as [scaled|] eqn:Hs; [|done].
  cbn [mbind option_bind] in Hrun. injection Hrun as <- <- <-.
  apply minmax_scale_spec in Hs.
  split.
  { apply list_eq. intros k. rewrite !list_lookup_fmap.
    destruct (df !! k) as [col|] eqn:Hk.
    - destruct (Forall2_lookup_l _ _ _ _ _ Hs Hk) as (col' & -> & Hname & _).
      simpl. by rewrite Hname.
    - apply Forall2_length in Hs. apply lookup_ge_None in Hk.
      rewrite (proj2 (lookup_ge_None scaled k)); [done | lia]. }
  destruct (minmax_dicts_spec df ∅ ∅ m r c values Hnd Hd) as
    (xs & lo & hi & Hxs & Hlo & Hhi & Hm & Hr); [by eapply list_elem_of_lookup_2 | done |].
  exists xs, lo, hi. do 5 (split; [done|]).
  destruct (Forall2_lookup_l _ _ _ _ _ Hs Hi) as ([c' values'] & Hi' & Hname & _ & Hscaled).
  simpl in *. subst c'.
  destruct (Hscaled Hc lo Hm) as (xs' & range & Hxs' & Hrange & ->).
  simplify_eq. intros Hne. split; [done|]. by apply scaled_range.
Qed.

(** X16. With both dictionaries supplied, as for data that is to be scaled
    like the reference, [minmax_standardize] returns them unchanged, keeps
    the columns and their order, leaves ['Subtype'] and every column
    without a minimum as it is, and maps every other column by
    [(x - min) / range] with the supplied numbers, where the range is not
    0. *)
Theorem minmax_standardize_supplied (df df' : Table) (m r m' r' : gmap string R)
    (i : nat) (c : string) (values : list cell) :
  minmax_standardize df (Some m) (Some r) = Some (df', m', r') →
  df !! i = Some (c, values) →
  m' = m ∧ r' = r ∧ length df' = length df ∧
  ((c = "Subtype" ∨ m !! c = None) → df' !! i = Some (c, values)) ∧
  (c ≠ "Subtype" → ∀ lo, m !! c = Some lo →
     ∃ xs range, numbers values = Some xs ∧ r !! c = Some range ∧
                 (range ≠ 0 →
                  df' !! i = Some (c, Num <$> ((λ x, (x - lo) / range) <$> xs)))).
Proof.
  intros Hrun Hi. unfold minmax_standardize in Hrun.
  cbn [mbind option_bind fst snd] in Hrun.
  destruct (minmax_scale df m r) as [scaled|] eqn:Hs; [|done].
  cbn [mbind option_bind] in Hrun. injection Hrun as <- <- <-.
  apply minmax_scale_spec in Hs.
  split; [done|]. split; [done|].
  split; [symmetry; by eapply Forall2_length|].
  destruct (Forall2_lookup_l _ _ _ _ _ Hs Hi) as ([c' values'] & Hi' & Hname & Hkeep & Hscaled).
  simpl in *. subst c'. split.
  - intros Hcase. by rewrite (Hkeep Hcase) in Hi'.
  - intros Hc lo Hlo. destruct (Hscaled Hc lo Hlo) as (xs & range & Hxs & Hrange & ->).
    by exists xs, range.
Qed.

(** X17. [minmax_standardize] raises when a column that it has to scale is
    without a range in the supplied dictionary ([KeyError]) or holds a
    string ([TypeError]). *)
Theorem minmax_standardize_raises (df : Table) (m r : gmap string R)
    (c : string) (values : list cell) (lo : R) :
  (c, values) ∈ df → c ≠ "Subtype" → m !! c = Some lo →
  r !! c = None ∨ numbers values = None →
  minmax_standardize df (Some m) (Some r) = None.
Proof.
  intros Hin Hc Hlo Hbad. unfold minmax_standardize.
  cbn [mbind option_bind fst snd].
  assert (Hs : minmax_scale df m r = None); [|by rewrite Hs].
  induction df as [|[c' values'] df IH]; [by apply elem_of_nil in Hin|].
  simpl. apply elem_of_cons in Hin as [[= <- <-] | Hin].
  - rewrite decide_True by done. rewrite Hlo.
    destruct Hbad as [Hr | Hn].
    + rewrite Hr. by destruct (numbers values).
    + by rewrite Hn.
  - rewrite (IH Hin). by destruct (if decide (c' ≠ "Subtype") then _ else _).
Qed.
End MinMax.

Section MinMaxWitness.
Local Open Scope R_scope.

Lemma example_table_standardized :
  is_Some (minmax_standardize example_table None None).
Proof.
  unfold minmax_standardize, example_table. simpl. by eexists.
Qed.

Lemma minmax_standardize_unit_interval_witness :
  ∃ df' mins ranges,
    minmax_standardize example_table None None = Some (df', mins, ranges) ∧
    df'.*1 = example_table.*1.
Proof.
  destruct example_table_standardized as [[[df' mins] ranges] Hrun].
  exists df', mins, ranges. split; [done|].
  apply (minmax_standardize_unit_interval example_table df' None None mins ranges
           1 "AR" [Num 1; Num 2; Num 3]); [|by left|done|done|done].
  by apply (bool_decide_unpack _).
Defined.

Lemma minmax_standardize_supplied_witness :
  ∃ df',
    minmax_standardize example_table (Some {["AR" := 1]}) (Some {["AR" := 2]})
    = Some (df', {["AR" := 1]}, {["AR" := 2]}) ∧
    length df' = length example_table.
Proof.
  assert (Hrun : is_Some (minmax_standardize example_table
                            (Some {["AR" := 1]}) (Some {["AR" := 2]}))).
  { unfold minmax_standardize, example_table. simpl. by eexists. }
  destruct Hrun as [[[df' m'] r'] Hrun].
  destruct (minmax_standardize_supplied example_table df' {["AR" := 1]} {["AR" := 2]}
              m' r' 1 "AR" [Num 1; Num 2; Num 3] Hrun eq_refl) as (-> & -> & Hlen & _).
  by exists df'.
Defined.

Lemma minmax_standardize_raises_witness :
  minmax_standardize example_table (Some {["AR" := 1]}) (Some ∅) = None.
Proof.
  apply (minmax_standardize_raises example_table {["AR" := 1]} ∅ "AR"
           [Num 1; Num 2; Num 3] 1).
  - right. left.
  - done.
  - done.
  - by left.
Defined.
End MinMaxWitness.
